(** * unwindingtest: exceptions crossing JIT-compiled frames

    A shallow embedding of [unwindingtest.cpp].  The program compiles the
    function [foo], which takes a function pointer [bar] and an [int v]
    and returns [bar(v)], at run time, calls it with a callback that throws
    on small inputs, and checks every outcome against an expected value,
    from one or from several threads.

    Conventions.  C++ [int] and [unsigned] are 32 bits wide and [uint64_t]
    is 64 bits wide; all of them are carried by [Z] and every operation
    that can leave the range is followed by its reduction ([to_int],
    [to_unsigned], [to_uint64]).  Signed arithmetic is two's complement, as
    the compiled program computes it; the language itself leaves signed
    overflow undefined.  A call either returns an [int] or throws one.
    The code generator and the clock are outside the program and appear as
    parameters; running out of memory or of threads is not modelled. *)

From Stdlib Require Import String Ascii ZArith List Bool Lia.
From Stdlib Require DecimalString DecimalPos.
From Stdlib Require Import Relations.Relation_Operators.
Import ListNotations.

Local Open Scope Z_scope.

(** ** Machine integers *)

Module Int.

Definition modulus32 : Z := 2 ^ 32.
Definition modulus64 : Z := 2 ^ 64.
Definition INT_MAX : Z := 2147483647.
Definition INT_MIN : Z := -2147483648.

(** Conversion to [unsigned]. *)
Definition to_unsigned (x : Z) : Z := x mod modulus32.

(** Conversion to [uint64_t]. *)
Definition to_uint64 (x : Z) : Z := x mod modulus64.

(** Conversion to [int]: the representative of [x] modulo 2^32 that lies
    in [INT_MIN, INT_MAX]. *)
Definition to_int (x : Z) : Z :=
  let u := x mod modulus32 in
  if u <=? INT_MAX then u else u - modulus32.

Definition is_int (x : Z) : Prop := INT_MIN <= x <= INT_MAX.
Definition is_unsigned (x : Z) : Prop := 0 <= x < modulus32.
Definition is_uint64 (x : Z) : Prop := 0 <= x < modulus64.

(** [int] arithmetic. *)
Definition add (x y : Z) : Z := to_int (x + y).
Definition mul (x y : Z) : Z := to_int (x * y).
(** [/] truncates towards zero. *)
Definition div (x y : Z) : Z := to_int (Z.quot x y).

End Int.

Module U64.

Definition shr (x n : Z) : Z := Z.shiftr x n.
Definition shl (x n : Z) : Z := Int.to_uint64 (Z.shiftl x n).
Definition mul (x y : Z) : Z := Int.to_uint64 (x * y).

End U64.

(** ** Calls that may throw *)

(** The result of calling a function from [int] to [int]: it returns an
    [int], or it leaves by [throw] with an [int]. *)
Inductive outcome : Type :=
| Returns (r : Z)
| Throws (e : Z).

(** The process either goes on with a value or has ended in [exit]
    with what it wrote on standard error and its status. *)
Inductive proc (A : Type) : Type :=
| Done (a : A)
| Exited (cerr : string) (status : Z).

Arguments Done {A} a.
Arguments Exited {A} cerr status.

Definition bind {A B : Type} (m : proc A) (k : A -> proc B) : proc B :=
  match m with
  | Done a => k a
  | Exited cerr status => Exited cerr status
  end.

Notation "x <- m ;; k" := (bind m (fun x => k))
  (at level 61, m at next level, right associativity).

Definition fatal {A : Type} (m : proc A) : Prop :=
  match m with
  | Done _ => False
  | Exited _ status => status <> 0
  end.

(** ** The callback *)

(** [static int callback(int v)]: throws on input < 1. *)
Definition callback (v : Z) : outcome :=
  if v <? 1 then Throws v
  else if negb (Z.land v 1 =? 0) then Returns (Int.add (Int.mul 3 v) 1)
  else Returns (Int.div v 2).

(** ** The container for the generated code *)

Definition CallbackSignature : Type := Z -> outcome.
Definition Signature : Type := CallbackSignature -> Z -> outcome.

Record JITContainer : Type := { jitedCode : Signature }.

Definition invoke (jitCode : JITContainer) (cb : CallbackSignature) (v : Z)
  : outcome :=
  jitedCode jitCode cb v.

(** The function the constructor builds and compiles: one call of its first
    argument on its second, whose result (or exception) is its own. *)
Definition foo : Signature := fun bar v => bar v.

Definition JITContainer_new : JITContainer := {| jitedCode := foo |}.

(** ** The check of one call *)

Definition endl : string := String (ascii_of_nat 10) EmptyString.

(** [operator<<] on an [int]. *)
Definition show_int (x : Z) : string :=
  DecimalString.NilZero.string_of_int (Z.to_int x).

Definition unexpected (input expected : Z) (got : string) : string :=
  ("unexpected result for input " ++ show_int input ++ ", expected "
     ++ show_int expected ++ ", got " ++ got ++ endl)%string.

(** [static bool doTest(const JITContainer&, int, int)]. *)
Definition doTest (jitCode : JITContainer) (input expected : Z) : proc bool :=
  match invoke jitCode callback input with
  | Returns r =>
      if (r <? 0) || negb (r =? expected)
      then Exited (unexpected input expected (show_int r)) 1
      else Done true
  | Throws _ =>
      if expected >=? 0
      then Exited (unexpected input expected "exception") 1
      else Done true
  end.

(** ** The generator *)

(** [struct Random]: xorshift on a 64-bit state. *)
Record Random : Type := { state : Z }.

(** [Random(uint64_t seed) : state((seed << 1) | 1)]. *)
Definition Random_new (seed : Z) : Random :=
  {| state := Z.lor (U64.shl seed 1) 1 |}.

Definition multiplier : Z := 0x2545F4914F6CDD1D.

(** [uint64_t operator()()]: the value drawn and the generator after it. *)
Definition Random_next (random : Random) : Z * Random :=
  let x := state random in
  let x := Z.lxor x (U64.shr x 12) in
  let x := Z.lxor x (U64.shl x 25) in
  let x := Z.lxor x (U64.shr x 27) in
  (U64.mul x multiplier, {| state := x |}).

(** The first [n] values drawn from a generator. *)
Fixpoint draws (n : nat) (random : Random) : list Z :=
  match n with
  | O => []
  | S n' => let (r, random') := Random_next random in r :: draws n' random'
  end.

(** ** One run with a certain error rate *)

(** [int arg = ((r % 1000) < errorRate) ? -1 : ((r & 0xFFFF) + 1);]
    Both branches are brought to [uint64_t], the type of the second one,
    before the result is stored in an [int]. *)
Definition arg (r errorRate : Z) : Z :=
  Int.to_int (if r mod 1000 <? errorRate
              then Int.to_uint64 (-1)
              else Int.to_uint64 (Z.land r 0xFFFF + 1)).

(** [int expected = (arg < 1) ? -1 : ((arg & 1) ? (3 * arg + 1) : (arg / 2));] *)
Definition expected (a : Z) : Z :=
  if a <? 1 then -1
  else if negb (Z.land a 1 =? 0) then Int.add (Int.mul 3 a) 1
  else Int.div a 2.

(** What a run does to the generated code, newest first. *)
Inductive event : Type :=
| Construct
| Invoke (a : Z)
| Destruct.

(** The variables of a run, and the events so far. *)
Record run_state : Type := {
  random : Random;
  result : Z;
  events : list event
}.

(** What a run that came to its end leaves: the value it returns, what it
    wrote on standard error, and its variables. *)
Record run_report : Type := {
  duration : Z;
  cerr : string;
  final : run_state
}.

(** [for (unsigned index = from; index != from + n; ++index) body]. *)
Fixpoint for_loop {S : Type} (index : Z) (n : nat)
    (body : Z -> S -> proc S) (s : S) : proc S :=
  match n with
  | O => Done s
  | Datatypes.S n' => s' <- body index s ;; for_loop (index + 1) n' body s'
  end.

Definition functionRepeat : Z := 10.
Definition repeat : Z := 10000.

Section Run.

(** The container that the [pass]-th construction yields: the code
    generator is not part of the program. *)
Variable newJIT : Z -> JITContainer.

(** Milliseconds between [start] and [stop]: the clock is not part of the
    program either. *)
Variable elapsed : Z.

Variable errorRate : Z.

(** The body of the inner loop. *)
Definition invocation (jitCode : JITContainer) (st : run_state)
  : proc run_state :=
  let (r, random') := Random_next (random st) in
  let a := arg r errorRate in
  let e := expected a in
  b <- doTest jitCode a e ;;
  Done {| random := random';
          result := Int.to_unsigned (result st + Z.b2z b);
          events := Invoke a :: events st |}.

(** The body of the outer loop: a fresh container, [repeat] calls, and the
    end of the container's scope. *)
Definition pass (index : Z) (st : run_state) : proc run_state :=
  let jitCode := newJIT index in
  let st := {| random := random st; result := result st;
               events := Construct :: events st |} in
  st' <- for_loop 0 (Z.to_nat repeat) (fun _ => invocation jitCode) st ;;
  Done {| random := random st'; result := result st';
          events := Destruct :: events st' |}.

(** [static unsigned doTest(unsigned errorRate, unsigned seed)]. *)
Definition doTest_run (seed : Z) : proc run_report :=
  let st := {| random := Random_new seed; result := 0; events := [] |} in
  st' <- for_loop 0 (Z.to_nat functionRepeat) pass st ;;
  Done {| duration := Int.to_unsigned elapsed;
          cerr := if result st' =? 0
                  then ("invalid result!" ++ endl)%string else EmptyString;
          final := st' |}.

End Run.

(** ** The test on several threads *)

(** A worker thread, by the point it has reached in its body:
    before [doTest(errorRate, index)] returns, before
    [maxDuration.load()], at the test of the [while], and at its end. *)
Inductive thread : Type :=
| Spawned (index : Z)
| Measured (index duration : Z)
| Retrying (index duration current : Z)
| Finished (index duration : Z).

(** The thread that called [doTestMultithreaded]: in the loop that
    spawns, in the loop that joins (with the number of threads joined),
    and after [return maxDuration.load()]. *)
Inductive main_pc : Type :=
| Spawning (index : Z)
| Joining (joined : nat)
| Returned (r : Z).

Inductive config : Type :=
| Single (run : proc run_report)
| Multi (main : main_pc) (threads : list thread) (maxDuration : Z)
| Halted (cerr : string) (status : Z).

Definition thread_index (t : thread) : Z :=
  match t with
  | Spawned i | Measured i _ | Retrying i _ _ | Finished i _ => i
  end.

Section Threads.

(** The container that the run seeded [seed] gets from its [pass]-th
    construction, and the milliseconds that run measures. *)
Variable newJIT : Z -> Z -> JITContainer.
Variable elapsed : Z -> Z.

Variables errorRate threadCount : Z.

(** With at most one thread the test runs in the caller; otherwise the
    caller starts with no thread and a maximum of 0. *)
Definition doTestMultithreaded : config :=
  if threadCount <=? 1
  then Single (doTest_run (newJIT 0) (elapsed 0) errorRate 0)
  else Multi (Spawning 0) [] 0.

(** One step of one worker: its new state and the new shared maximum.
    [compare_exchange_weak] may fail although the values are equal; when
    it fails, [current] holds the value that was read. *)
Inductive thread_step : thread -> Z -> thread -> Z -> Prop :=
| step_run i m rep :
    doTest_run (newJIT i) (elapsed i) errorRate i = Done rep ->
    thread_step (Spawned i) m (Measured i (duration rep)) m
| step_load i d m :
    thread_step (Measured i d) m (Retrying i d m) m
| step_leave i d c m :
    d <= c ->
    thread_step (Retrying i d c) m (Finished i d) m
| step_swap i d c :
    d > c ->
    thread_step (Retrying i d c) c (Finished i d) d
| step_retry i d c m :
    d > c ->
    thread_step (Retrying i d c) m (Retrying i d m) m.

Inductive step : config -> config -> Prop :=
| step_spawn index ts m :
    index <> threadCount ->
    step (Multi (Spawning index) ts m)
         (Multi (Spawning (Int.to_unsigned (index + 1)))
                (ts ++ [Spawned index]) m)
| step_spawned ts m :
    step (Multi (Spawning threadCount) ts m) (Multi (Joining 0) ts m)
| step_join k ts m i d :
    nth_error ts k = Some (Finished i d) ->
    step (Multi (Joining k) ts m) (Multi (Joining (S k)) ts m)
| step_joined ts m :
    step (Multi (Joining (List.length ts)) ts m) (Multi (Returned m) ts m)
| step_thread main ts1 t ts2 m t' m' :
    thread_step t m t' m' ->
    step (Multi main (ts1 ++ t :: ts2) m) (Multi main (ts1 ++ t' :: ts2) m')
| step_exit main ts1 i ts2 m cerr status :
    doTest_run (newJIT i) (elapsed i) errorRate i = Exited cerr status ->
    step (Multi main (ts1 ++ Spawned i :: ts2) m) (Halted cerr status).

(** The configurations the program can be in. *)
Definition reachable (c : config) : Prop :=
  clos_refl_trans_n1 config step doTestMultithreaded c.

(** [d] is what the run seeded [i] has returned. *)
Definition measured (i d : Z) : Prop :=
  exists rep,
    doTest_run (newJIT i) (elapsed i) errorRate i = Done rep /\
    d = duration rep.

(** What holds of a worker when the shared maximum is [m]: its duration
    is the one its run has returned, the value it has read is not above
    the maximum, and once it is done neither is its duration. *)
Definition thread_ok (m : Z) (t : thread) : Prop :=
  match t with
  | Spawned _ => True
  | Measured i d => measured i d
  | Retrying i d c => measured i d /\ c <= m
  | Finished i d => measured i d /\ d <= m
  end.

Definition finished (t : thread) : Prop :=
  match t with
  | Finished _ _ => True
  | _ => False
  end.

(** What holds of the caller: it spawns the thread numbered as the next
    place of the vector, it has joined only threads that are done, and it
    returns the maximum when all threads are done. *)
Definition main_ok (main : main_pc) (ts : list thread) (m : Z) : Prop :=
  match main with
  | Spawning index => index = Z.of_nat (length ts) /\ index <= threadCount
  | Joining k =>
      Z.of_nat (length ts) = threadCount /\
      forall j, (j < k)%nat -> exists t, nth_error ts j = Some t /\ finished t
  | Returned r =>
      Z.of_nat (length ts) = threadCount /\ r = m /\ Forall finished ts
  end.

Definition invariant (c : config) : Prop :=
  match c with
  | Single run =>
      threadCount <= 1 /\
      run = doTest_run (newJIT 0) (elapsed 0) errorRate 0
  | Multi main ts m =>
      1 < threadCount /\
      map thread_index ts = map Z.of_nat (seq 0 (length ts)) /\
      Forall (thread_ok m) ts /\
      main_ok main ts m
  | Halted cerr status =>
      exists i, doTest_run (newJIT i) (elapsed i) errorRate i
                = Exited cerr status
  end.

End Threads.

(** The configurations in which the test is over: the caller has
    returned or the process has ended. *)
Definition terminal (c : config) : Prop :=
  match c with
  | Single _ | Multi (Returned _) _ _ | Halted _ _ => True
  | Multi _ _ _ => False
  end.

(** The shared maximum is 0, its first value, or the duration of a thread
    that is done. *)
Definition max_attained (c : config) : Prop :=
  match c with
  | Multi _ ts m => m = 0 \/ exists i, In (Finished i m) ts
  | _ => True
  end.

(** The threads when the first [j] of [n] have run, one after the other:
    these are done, with the durations [d], and the others have not
    started. *)
Definition threads_after (d : Z -> Z) (n j : nat) : list thread :=
  (map (fun i => Finished (Z.of_nat i) (d (Z.of_nat i))) (seq 0 j) ++
   map (fun i => Spawned (Z.of_nat i)) (seq j (n - j)))%list.

(** The largest of the first [j] values of [d], and 0 when there is
    none. *)
Fixpoint max_upto (d : Z -> Z) (j : nat) : Z :=
  match j with
  | O => 0
  | S j' => Z.max (max_upto d j') (d (Z.of_nat j'))
  end.


(** ** The thread counts *)

(** [std::vector<unsigned>]: [back] and [push_back]. *)
Definition back (v : list Z) : Z := last v 0.
Definition push_back (v : list Z) (x : Z) : list Z := (v ++ [x])%list.

(** The loop of [buildThreadCounts]; [fuel] bounds the number of times its
    condition is tested, and [None] says that the bound was reached. *)
Fixpoint buildThreadCounts_loop (fuel : nat) (maxCount : Z)
    (threadCounts : list Z) : option (list Z) :=
  match fuel with
  | O => None
  | S fuel' =>
      if back threadCounts <? maxCount
      then buildThreadCounts_loop fuel' maxCount
             (push_back threadCounts
                (Z.min (Int.to_unsigned (back threadCounts * 2)) maxCount))
      else Some threadCounts
  end.

(** [static std::vector<unsigned> buildThreadCounts(unsigned maxCount)]. *)
Definition buildThreadCounts (fuel : nat) (maxCount : Z) : option (list Z) :=
  buildThreadCounts_loop fuel maxCount [1].

(** What [std::stoi] throws. *)
Inductive exception : Type :=
| invalid_argument
| out_of_range.

(** [isspace] in the "C" locale. *)
Definition isspace (c : ascii) : bool :=
  let n := nat_of_ascii c in
  ((9 <=? n) && (n <=? 13) || (n =? 32))%nat.

Definition digit (c : ascii) : option Z :=
  let n := nat_of_ascii c in
  if ((48 <=? n) && (n <=? 57))%nat then Some (Z.of_nat n - 48) else None.

Fixpoint skip_spaces (s : string) : string :=
  match s with
  | String c s' => if isspace c then skip_spaces s' else s
  | EmptyString => s
  end.

(** The value of the longest prefix of decimal digits, after [acc]. *)
Fixpoint digits (acc : Z) (s : string) : Z :=
  match s with
  | String c s' =>
      match digit c with
      | Some d => digits (10 * acc + d) s'
      | None => acc
      end
  | EmptyString => acc
  end.

Definition starts_with_digit (s : string) : bool :=
  match s with
  | String c _ => match digit c with Some _ => true | None => false end
  | EmptyString => false
  end.

(** [std::stoi(str)]: white space, an optional sign and decimal digits;
    what follows the digits is ignored. *)
Definition stoi (str : string) : exception + Z :=
  let s := skip_spaces str in
  let (negative, s) :=
    match s with
    | String "-" s' => (true, s')
    | String "+" s' => (false, s')
    | _ => (false, s)
    end in
  if starts_with_digit s then
    let v := if negative then - digits 0 s else digits 0 s in
    if (v <? Int.INT_MIN) || (Int.INT_MAX <? v)
    then inl out_of_range else inr v
  else inl invalid_argument.

(** The lambda [add] of [interpretThreadCounts]. *)
Definition add (desc : string) (threadCounts : list Z)
  : exception + list Z :=
  match stoi desc with
  | inl e => inl e
  | inr v =>
      let c := Int.to_unsigned v in
      inr (if c =? 0 then threadCounts else push_back threadCounts c)
  end.

(** [desc.find(' ')], [desc.substr(0, split)] and [desc.substr(split + 1)]. *)
Definition find_space (desc : string) : option nat := index 0 " " desc.
Definition substr (pos n : nat) (desc : string) : string :=
  substring pos n desc.
Definition substr_from (pos : nat) (desc : string) : string :=
  substring pos (String.length desc - pos) desc.

(** The loop of [interpretThreadCounts] and the call of [add] after it. *)
Fixpoint interpretThreadCounts_loop (fuel : nat) (desc : string)
    (threadCounts : list Z) : option (exception + list Z) :=
  match fuel with
  | O => None
  | S fuel' =>
      match find_space desc with
      | Some split =>
          match add (substr 0 split desc) threadCounts with
          | inl e => Some (inl e)
          | inr threadCounts' =>
              interpretThreadCounts_loop fuel' (substr_from (split + 1) desc)
                threadCounts'
          end
      | None => Some (add desc threadCounts)
      end
  end.

(** [static std::vector<unsigned> interpretThreadCounts(std::string desc)].
    Every turn of the loop removes at least one character. *)
Definition interpretThreadCounts (desc : string)
  : option (exception + list Z) :=
  interpretThreadCounts_loop (S (String.length desc)) desc [].

(** ** The arguments of [main] *)

(** How the handling of the arguments ends: [main] returns after writing
    on standard output, an exception reaches the top of [main], or
    [main] goes on to the tests with the thread counts. *)
Inductive arguments_result : Type :=
| Return (cout : string) (status : Z)
| Uncaught (e : exception)
| Tests (threadCounts : list Z)
| Diverges.

(** The loop over [argv[1]], ..., [argv[argc - 1]]. *)
Fixpoint handle_arguments (args : list string) (threadCounts : list Z)
  : arguments_result :=
  match args with
  | [] => Tests threadCounts
  | o :: rest =>
      match String.eqb o "--threads", rest with
      | true, desc :: rest' =>
          match interpretThreadCounts desc with
          | Some (inr threadCounts') => handle_arguments rest' threadCounts'
          | Some (inl e) => Uncaught e
          | None => Diverges
          end
      | _, _ => Return ("unknown option " ++ o ++ endl)%string 1
      end
  end.

(** [main] up to the initialisation of the code generator; [fuel] is for
    [buildThreadCounts]. *)
Definition main (fuel : nat) (hardware_concurrency : Z) (argv : list string)
  : arguments_result :=
  match buildThreadCounts fuel (hardware_concurrency / 2) with
  | Some threadCounts => handle_arguments (tl argv) threadCounts
  | None => Diverges
  end.

(** ** The shape of a run *)

(** The events of one container, oldest first: its construction, one call
    for each input, and its destruction. *)
Definition unit_events (inputs : list Z) : list event :=
  (Construct :: map Invoke inputs ++ [Destruct])%list.

(** The events of a run that made one container for each list of inputs. *)
Definition run_events (inputs : list (list Z)) : list event :=
  List.concat (map unit_events inputs).

(** The code generator as the program relies on it: every construction
    yields the compiled [foo]. *)
Definition sound_engine : Z -> JITContainer := fun _ => JITContainer_new.

(** ** The shape of the thread counts *)

(** [R] holds between every element of the list and the next one. *)
Fixpoint adjacent (R : Z -> Z -> Prop) (l : list Z) : Prop :=
  match l with
  | a :: (b :: _) as t => R a b /\ adjacent R t
  | _ => True
  end.

Definition increasing : list Z -> Prop := adjacent Z.lt.
Definition doubling : list Z -> Prop := adjacent (fun a b => b = 2 * a).

(** ** The pieces of a description *)

(** The pieces of [desc] between its spaces: one more than it has
    spaces, some of them possibly empty. *)
Fixpoint tokens (desc : string) : list string :=
  match desc with
  | EmptyString => [EmptyString]
  | String c desc' =>
      if Ascii.eqb c " " then EmptyString :: tokens desc'
      else match tokens desc' with
           | t :: ts => String c t :: ts
           | [] => [String c EmptyString]
           end
  end.

(** [add] on one piece after the other, up to the first exception. *)
Fixpoint add_all (ts : list string) (threadCounts : list Z)
  : exception + list Z :=
  match ts with
  | [] => inr threadCounts
  | t :: ts' =>
      match add t threadCounts with
      | inl e => inl e
      | inr threadCounts' => add_all ts' threadCounts'
      end
  end.

(** [std::stoi] returns on the piece. *)
Definition parses (t : string) : Prop := exists v, stoi t = inr v.

(** The count that a piece stands for: what [std::stoi] returns, as an
    [unsigned]. *)
Definition count_of (t : string) : Z :=
  match stoi t with
  | inr v => Int.to_unsigned v
  | inl _ => 0
  end.

Definition counts (ts : list string) : list Z :=
  filter (fun c => negb (c =? 0)) (map count_of ts).

(** The arguments that set the thread counts to each of [descs] in turn. *)
Definition threads_options (descs : list string) : list string :=
  flat_map (fun desc => ["--threads"%string; desc]) descs.

(** ** The sanity test *)

(** [static void sanityTest(const JITContainer&)]. *)
Definition sanityTest (jitCode : JITContainer) : proc unit :=
  _ <- doTest jitCode 2 1 ;;
  _ <- doTest jitCode 1 4 ;;
  _ <- doTest jitCode 0 (-1) ;;
  _ <- doTest jitCode (-1) (-1) ;;
  Done tt.

(** ** The generator along a run *)

(** The generator after [n] draws. *)
Fixpoint skip (n : nat) (random : Random) : Random :=
  match n with
  | O => random
  | S n' => skip n' (snd (Random_next random))
  end.

(** A generator that xorshift moves: its state is a 64-bit value other
    than 0. *)
Definition live (random : Random) : Prop :=
  Int.is_uint64 (state random) /\ state random <> 0.

(** The inputs that the draws of a run make: for each container in turn,
    [repeat] draws from where the container before it has left the
    generator. *)
Definition run_inputs (errorRate seed : Z) : list (list Z) :=
  map (fun pass =>
         map (fun r => arg r errorRate)
             (draws (Z.to_nat repeat)
                    (skip (pass * Z.to_nat repeat) (Random_new seed))))
      (seq 0 (Z.to_nat functionRepeat)).

(** ** The sweep *)

Definition failureRates : list Z := [0; 1; 10; 100].

(** [for (auto c : threadCounts) std::cout << " " << c;] *)
Definition show_counts (threadCounts : list Z) : string :=
  fold_left (fun out c => (out ++ " " ++ show_int c)%string) threadCounts
            EmptyString.

Section Sweep.

(** [operator<<] on the [double] that [fr / 10.0] is: floating point is
    outside the model. *)
Variable show_rate : Z -> string.

(** How the call of [doTestMultithreaded(fr, tc)] ends when [n] calls have
    been made before it: with the duration it returns, or with the end of
    the process. *)
Variable orchestrate : nat -> Z -> Z -> proc Z.

(** The inner loop of [runTests], from the calls made and the output
    written so far to the calls made and the output of the row, or the
    end of the process. *)
Fixpoint row (fr : Z) (threadCounts : list Z) (calls : list (Z * Z))
    (cout : string) : list (Z * Z) * proc string :=
  match threadCounts with
  | [] => (calls, Done cout)
  | tc :: rest =>
      match orchestrate (length calls) fr tc with
      | Done r =>
          row fr rest (calls ++ [(fr, tc)]) (cout ++ " " ++ show_int r)%string
      | Exited cerr status => (calls ++ [(fr, tc)], Exited cerr status)
      end
  end.

(** The outer loop of [runTests]. *)
Fixpoint rows (rates : list Z) (threadCounts : list Z) (calls : list (Z * Z))
    (cout : string) : list (Z * Z) * proc string :=
  match rates with
  | [] => (calls, Done cout)
  | fr :: rates' =>
      match row fr threadCounts calls
              (cout ++ "failure rate " ++ show_rate fr ++ "%:")%string with
      | (calls', Done cout') => rows rates' threadCounts calls' (cout' ++ endl)
      | (calls', Exited cerr status) => (calls', Exited cerr status)
      end
  end.

(** [static void runTests(const std::vector<unsigned>&)]: the calls of
    [doTestMultithreaded] it makes, and what it has written on standard
    output when it returns. *)
Definition runTests (threadCounts : list Z) : list (Z * Z) * proc string :=
  rows failureRates threadCounts []
       ("testing  using" ++ show_counts threadCounts ++ " threads" ++ endl).

(** The calls in [cells], made after [start] others, have all returned. *)
Definition all_returned (start : nat) (cells : list (Z * Z)) : Prop :=
  forall n fr tc,
    nth_error cells n = Some (fr, tc) ->
    exists r, orchestrate (start + n) fr tc = Done r.

(** What a part of the sweep has come to: all its cells have been called
    and have returned, or the cells up to one that has ended the process
    have been called. *)
Definition swept (cells : list (Z * Z)) (start : nat)
    (calls : list (Z * Z)) (e : proc string) : Prop :=
  match e with
  | Done _ => calls = cells /\ all_returned start cells
  | Exited cerr status =>
      exists before fr tc after,
        cells = (before ++ (fr, tc) :: after)%list /\
        calls = (before ++ [(fr, tc)])%list /\
        all_returned start before /\
        orchestrate (start + length before) fr tc = Exited cerr status
  end.



End Sweep.

(** * Properties *)

(** ** Machine integers *)

Lemma to_int_id x : Int.is_int x -> Int.to_int x = x.
Proof.
  unfold Int.is_int, Int.to_int, Int.INT_MIN, Int.INT_MAX, Int.modulus32.
  intros [Hlo Hhi].
  destruct (Z_lt_le_dec x 0) as [Hneg | Hpos].
  - replace (x mod 2 ^ 32) with (x + 2 ^ 32).
    + destruct (Z.leb_spec (x + 2 ^ 32) 2147483647); lia.
    + apply Z.mod_unique with (q := -1); lia.
  - rewrite Z.mod_small by lia.
    destruct (Z.leb_spec x 2147483647); lia.
Qed.

Lemma to_unsigned_id x : Int.is_unsigned x -> Int.to_unsigned x = x.
Proof. intros H. apply Z.mod_small. exact H. Qed.

Lemma to_uint64_id x : Int.is_uint64 x -> Int.to_uint64 x = x.
Proof. intros H. apply Z.mod_small. exact H. Qed.

Lemma to_uint64_range x : Int.is_uint64 (Int.to_uint64 x).
Proof. apply Z.mod_pos_bound. reflexivity. Qed.

Lemma to_unsigned_range x : Int.is_unsigned (Int.to_unsigned x).
Proof. apply Z.mod_pos_bound. reflexivity. Qed.

(** The low bit of a number decides its parity. *)
Lemma land_1_odd v : Z.land v 1 = if Z.odd v then 1 else 0.
Proof.
  change 1 with (Z.ones 1) at 1.
  rewrite Z.land_ones by lia.
  change (2 ^ 1) with 2.
  rewrite Zmod_odd. reflexivity.
Qed.

Lemma low_bit_test v : negb (Z.land v 1 =? 0) = Z.odd v.
Proof. rewrite land_1_odd. destruct (Z.odd v); reflexivity. Qed.

(** Bits above the sixteenth are masked away. *)
Lemma land_FFFF_range r : 0 <= Z.land r 0xFFFF <= 65535.
Proof.
  change (Z.land r 0xFFFF) with (Z.land r (Z.ones 16)).
  rewrite Z.land_ones by lia.
  pose proof (Z.mod_pos_bound r (2 ^ 16) eq_refl) as H.
  assert (E : 2 ^ 16 = 65536) by reflexivity.
  rewrite E in *. lia.
Qed.

Lemma lxor_uint64 a b :
  Int.is_uint64 a -> Int.is_uint64 b -> Int.is_uint64 (Z.lxor a b).
Proof.
  unfold Int.is_uint64, Int.modulus64. intros [Ha Ha'] [Hb Hb'].
  assert (H0 : 0 <= Z.lxor a b) by (apply Z.lxor_nonneg; tauto).
  split; [exact H0 |].
  destruct (Z.eq_dec (Z.lxor a b) 0) as [-> | Hnz]; [reflexivity |].
  apply Z.log2_lt_pow2; [lia |].
  eapply Z.le_lt_trans; [apply Z.log2_lxor; assumption |].
  apply Z.max_lub_lt.
  - destruct (Z.eq_dec a 0) as [-> | ?]; [reflexivity |].
    apply Z.log2_lt_pow2; lia.
  - destruct (Z.eq_dec b 0) as [-> | ?]; [reflexivity |].
    apply Z.log2_lt_pow2; lia.
Qed.

Lemma shr_uint64 x n : 0 <= n -> Int.is_uint64 x -> Int.is_uint64 (U64.shr x n).
Proof.
  unfold Int.is_uint64, U64.shr. intros Hn [H0 H1].
  rewrite Z.shiftr_div_pow2 by exact Hn.
  assert (0 < 2 ^ n) by (apply Z.pow_pos_nonneg; lia).
  split.
  - apply Z.div_pos; lia.
  - eapply Z.le_lt_trans; [| exact H1].
    apply Z.div_le_upper_bound; [lia |]. nia.
Qed.

(** ** The callback and the expected value *)

Lemma callback_throws v : v < 1 -> callback v = Throws v.
Proof.
  intros H. unfold callback.
  destruct (Z.ltb_spec v 1); [reflexivity | lia].
Qed.

Lemma callback_returns v :
  1 <= v -> callback v = Returns (expected v).
Proof.
  intros H. unfold callback, expected.
  destruct (Z.ltb_spec v 1); [lia |].
  destruct (negb (Z.land v 1 =? 0)); reflexivity.
Qed.

Lemma expected_even v :
  Int.is_int v -> 1 <= v -> Z.even v = true -> expected v = v / 2.
Proof.
  intros Hint H Hev. unfold expected.
  destruct (Z.ltb_spec v 1); [lia |].
  rewrite low_bit_test, <- Z.negb_even, Hev. cbn [negb].
  unfold Int.div. rewrite Z.quot_div_nonneg by lia.
  apply to_int_id. unfold Int.is_int, Int.INT_MIN, Int.INT_MAX in *.
  assert (0 <= v / 2) by (apply Z.div_pos; lia).
  assert (v / 2 <= v) by (apply Z.div_le_upper_bound; lia).
  lia.
Qed.

Lemma expected_odd v :
  1 <= v -> 3 * v + 1 <= Int.INT_MAX -> Z.odd v = true ->
  expected v = 3 * v + 1.
Proof.
  intros H Hmax Hodd. unfold expected.
  destruct (Z.ltb_spec v 1); [lia |].
  rewrite low_bit_test, Hodd.
  unfold Int.add, Int.mul, Int.INT_MAX in *.
  rewrite (to_int_id (3 * v)), to_int_id;
    unfold Int.is_int, Int.INT_MIN, Int.INT_MAX; lia.
Qed.

Lemma expected_sentinel v : v < 1 -> expected v = -1.
Proof.
  intros H. unfold expected.
  destruct (Z.ltb_spec v 1); [reflexivity | lia].
Qed.

(** In the range of the generated inputs the expected value is not
    negative, so that it cannot be taken for the sentinel. *)
Lemma expected_nonneg v : 1 <= v <= 65536 -> 0 <= expected v.
Proof.
  intros H.
  assert (Hint : Int.is_int v)
    by (unfold Int.is_int, Int.INT_MIN, Int.INT_MAX; lia).
  destruct (Z.odd v) eqn:Hodd.
  - rewrite expected_odd; unfold Int.INT_MAX; try lia. exact Hodd.
  - rewrite expected_even.
    + apply Z.div_pos; lia.
    + exact Hint.
    + lia.
    + rewrite <- Z.negb_odd, Hodd. reflexivity.
Qed.

(** The compiled function hands the callback's outcome through. *)
Lemma invoke_new cb v : invoke JITContainer_new cb v = cb v.
Proof. reflexivity. Qed.

(** C1, as it stands, fails where [3 * v + 1] leaves the range of [int]:
    715827883 is odd and at least 1, and the callback returns
    -2147483646 for it, not 2147483650. *)
Lemma callback_overflow :
  Int.is_int 715827883 /\ 1 <= 715827883 /\ Z.odd 715827883 = true /\
  callback 715827883 = Returns (-2147483646) /\
  callback 715827883 <> Returns (3 * 715827883 + 1).
Proof.
  repeat split; try (vm_compute; congruence).
Qed.

(** C1, amended.  For every [int] v: when v < 1 the callback throws v and
    returns nothing; when v >= 1 it does not throw, it returns v / 2 for an
    even v, and 3 v + 1 for an odd v as long as 3 v + 1 is an [int].  The
    compiled function called with the callback behaves as the callback. *)
Theorem callback_spec v :
  Int.is_int v ->
  (v < 1 -> callback v = Throws v) /\
  (1 <= v -> exists r, callback v = Returns r) /\
  (1 <= v -> Z.even v = true -> callback v = Returns (v / 2)) /\
  (1 <= v -> Z.odd v = true -> 3 * v + 1 <= Int.INT_MAX ->
   callback v = Returns (3 * v + 1)) /\
  invoke JITContainer_new callback v = callback v.
Proof.
  intros Hint. repeat split.
  - apply callback_throws.
  - intros H. eexists. apply callback_returns, H.
  - intros H Hev. rewrite callback_returns by exact H.
    f_equal. apply expected_even; assumption.
  - intros H Hodd Hmax. rewrite callback_returns by exact H.
    f_equal. apply expected_odd; assumption.
Qed.

(** The three cases of the callback on -3, 6 and 7. *)
Lemma callback_spec_witness :
  callback (-3) = Throws (-3) /\ callback 6 = Returns 3 /\
  callback 7 = Returns 22.
Proof.
  assert (Hint : forall v, -10 <= v <= 10 -> Int.is_int v)
    by (unfold Int.is_int, Int.INT_MIN, Int.INT_MAX; lia).
  destruct (callback_spec (-3) (Hint (-3) ltac:(lia))) as (Hthrow & _).
  destruct (callback_spec 6 (Hint 6 ltac:(lia))) as (_ & _ & Heven & _).
  destruct (callback_spec 7 (Hint 7 ltac:(lia))) as (_ & _ & _ & Hodd & _).
  split; [| split].
  - apply Hthrow. lia.
  - apply (Heven ltac:(lia) eq_refl).
  - apply (Hodd ltac:(lia) eq_refl). unfold Int.INT_MAX. lia.
Defined.

(** C2.  With the call made through any container: when the call returns
    r, the check ends the process, with status 1 after a report of the
    input, the expected and the actual value on standard error, exactly
    when r is negative or differs from the expected value; when the call
    throws, it does so exactly when the expected value is not negative; in
    every other case the check returns true. *)
Theorem doTest_fatal_iff jitCode input e :
  (forall r, invoke jitCode callback input = Returns r ->
     (fatal (doTest jitCode input e) <-> r < 0 \/ r <> e) /\
     (fatal (doTest jitCode input e) ->
      doTest jitCode input e = Exited (unexpected input e (show_int r)) 1)) /\
  (forall x, invoke jitCode callback input = Throws x ->
     (fatal (doTest jitCode input e) <-> e >= 0) /\
     (fatal (doTest jitCode input e) ->
      doTest jitCode input e = Exited (unexpected input e "exception") 1)) /\
  (~ fatal (doTest jitCode input e) -> doTest jitCode input e = Done true).
Proof.
  unfold doTest. split; [| split].
  - intros r ->.
    destruct (Z.ltb_spec r 0); destruct (Z.eqb_spec r e); cbn;
      (split; [split |]); intros; try reflexivity; try lia; tauto.
  - intros x ->. unfold Z.geb.
    destruct (Z.compare_spec e 0); cbn;
      (split; [split |]); intros; try reflexivity; try lia; tauto.
  - destruct (invoke jitCode callback input) as [r | x].
    + destruct ((r <? 0) || negb (r =? e)); cbn; [| reflexivity].
      intros H. exfalso. apply H. lia.
    + destruct (e >=? 0); cbn; [| reflexivity].
      intros H. exfalso. apply H. lia.
Qed.

(** A wrong value, a missing value and an expected exception. *)
Lemma doTest_fatal_iff_witness :
  fatal (doTest JITContainer_new 3 5) /\
  fatal (doTest JITContainer_new 0 4) /\
  doTest JITContainer_new (-1) (-1) = Done true.
Proof.
  destruct (doTest_fatal_iff JITContainer_new 3 5) as (Hr & _ & _).
  destruct (doTest_fatal_iff JITContainer_new 0 4) as (_ & Hx & _).
  destruct (doTest_fatal_iff JITContainer_new (-1) (-1)) as (_ & _ & Hd).
  split; [| split].
  - apply (Hr 10 eq_refl). right. lia.
  - apply (Hx 0 eq_refl). lia.
  - apply Hd. cbn. tauto.
Defined.

(** C3.  The expected value computed in the loop agrees with the
    callback: for every a >= 1 the callback returns it, and for every
    a < 1, where the callback throws, it is the sentinel -1, a negative
    value, which the check takes as the announcement of an exception. *)
Theorem expected_matches_callback a :
  (1 <= a -> callback a = Returns (expected a)) /\
  (a < 1 ->
   expected a = -1 /\ callback a = Throws a /\
   doTest JITContainer_new a (expected a) = Done true).
Proof.
  split.
  - apply callback_returns.
  - intros H. rewrite (expected_sentinel a H).
    repeat split.
    + apply callback_throws, H.
    + unfold doTest. rewrite invoke_new, (callback_throws a H). reflexivity.
Qed.

(** The expected value for 27 and for 0. *)
Lemma expected_matches_callback_witness :
  callback 27 = Returns (expected 27) /\ expected 0 = -1.
Proof.
  split.
  - apply (expected_matches_callback 27). lia.
  - apply (expected_matches_callback 0). lia.
Defined.

(** ** The generator *)

Lemma lor_1_uint64 a : Int.is_uint64 a -> Int.is_uint64 (Z.lor a 1).
Proof.
  unfold Int.is_uint64, Int.modulus64. intros [Ha Ha'].
  assert (H0 : 0 <= Z.lor a 1) by (apply Z.lor_nonneg; lia).
  split; [exact H0 |].
  apply Z.log2_lt_pow2; [| rewrite Z.log2_lor by lia].
  - assert (Z.lor a 1 <> 0) by (rewrite Z.lor_eq_0_iff; lia). lia.
  - apply Z.max_lub_lt; [| reflexivity].
    destruct (Z.eq_dec a 0) as [-> | ?]; [reflexivity |].
    apply Z.log2_lt_pow2; lia.
Qed.

Lemma Random_new_range seed : Int.is_uint64 (state (Random_new seed)).
Proof. apply lor_1_uint64, to_uint64_range. Qed.

Lemma Random_next_range random :
  Int.is_uint64 (state random) ->
  Int.is_uint64 (fst (Random_next random)) /\
  Int.is_uint64 (state (snd (Random_next random))).
Proof.
  intros H. unfold Random_next. cbn [fst snd state]. split.
  - apply to_uint64_range.
  - repeat first
      [ assumption
      | apply lxor_uint64
      | apply shr_uint64; [lia |]
      | apply to_uint64_range ].
Qed.

Lemma draws_range n : forall random,
  Int.is_uint64 (state random) -> Forall Int.is_uint64 (draws n random).
Proof.
  induction n as [| n IH]; intros random H; cbn [draws].
  - constructor.
  - destruct (Random_next random) as [r random'] eqn:E.
    pose proof (Random_next_range random H) as [Hr Hs].
    rewrite E in Hr, Hs. constructor; [exact Hr | apply IH, Hs].
Qed.

(** C4.  The state after construction is (seed << 1) | 1 in 64 bits; a
    draw applies x ^= x >> 12, x ^= x << 25, x ^= x >> 27 to the state,
    keeps the value as the new state and returns it times
    0x2545F4914F6CDD1D in 64 bits; the states and the values drawn are
    64-bit values; and generators made from the same seed draw the same
    values. *)
Theorem Random_spec seed :
  state (Random_new seed) = Z.lor (Z.shiftl seed 1 mod 2 ^ 64) 1 /\
  (forall random,
     let x0 := state random in
     let x1 := Z.lxor x0 (Z.shiftr x0 12) in
     let x2 := Z.lxor x1 (Z.shiftl x1 25 mod 2 ^ 64) in
     let x3 := Z.lxor x2 (Z.shiftr x2 27) in
     Random_next random =
       ((x3 * 0x2545F4914F6CDD1D) mod 2 ^ 64, {| state := x3 |})) /\
  (forall n random,
     draws (S n) random =
       fst (Random_next random) :: draws n (snd (Random_next random))) /\
  (forall n,
     Int.is_uint64 (state (Random_new seed)) /\
     Forall Int.is_uint64 (draws n (Random_new seed))) /\
  (forall seed' n,
     seed' = seed -> draws n (Random_new seed') = draws n (Random_new seed)).
Proof.
  split; [reflexivity |].
  split; [reflexivity |].
  split; [| split].
  - intros n random. cbn [draws].
    destruct (Random_next random). reflexivity.
  - intros n. split; [apply Random_new_range |].
    apply draws_range, Random_new_range.
  - intros seed' n ->. reflexivity.
Qed.

(** The first draws for the seeds 7 and 0. *)
Lemma Random_spec_witness :
  draws 2 (Random_new 7) = draws 2 (Random_new 7) /\
  draws 2 (Random_new 0) = [5180492295206395165; 12380297144915551517].
Proof.
  split.
  - apply (Random_spec 7). reflexivity.
  - vm_compute. reflexivity.
Defined.

(** ** The inputs of a run *)

Lemma arg_forced r errorRate : r mod 1000 < errorRate -> arg r errorRate = -1.
Proof.
  intros H. unfold arg.
  destruct (Z.ltb_spec (r mod 1000) errorRate); [reflexivity | lia].
Qed.

Lemma arg_drawn r errorRate :
  errorRate <= r mod 1000 -> arg r errorRate = Z.land r 0xFFFF + 1.
Proof.
  intros H. unfold arg.
  pose proof (land_FFFF_range r) as Hr.
  destruct (Z.ltb_spec (r mod 1000) errorRate); [lia |].
  rewrite to_uint64_id, to_int_id; [reflexivity | |];
    unfold Int.is_int, Int.is_uint64, Int.INT_MIN, Int.INT_MAX, Int.modulus64;
    lia.
Qed.

Lemma arg_cases r errorRate :
  arg r errorRate = -1 \/ 1 <= arg r errorRate <= 65536.
Proof.
  destruct (Z_lt_le_dec (r mod 1000) errorRate) as [H | H].
  - left. apply arg_forced, H.
  - right. rewrite (arg_drawn _ _ H).
    pose proof (land_FFFF_range r). lia.
Qed.

(** C5.  The input is -1 when r mod 1000 < errorRate and (r & 0xFFFF) + 1,
    a value from 1 to 65536, otherwise; an invocation draws once from the
    generator, makes the input from that value and the expected value
    from the input, and checks the call against the two. *)
Theorem arg_spec r errorRate :
  (r mod 1000 < errorRate -> arg r errorRate = -1) /\
  (errorRate <= r mod 1000 ->
   arg r errorRate = Z.land r 0xFFFF + 1 /\ 1 <= arg r errorRate <= 65536) /\
  (forall jitCode st,
     invocation errorRate jitCode st =
       (let drawn := Random_next (random st) in
        let a := arg (fst drawn) errorRate in
        b <- doTest jitCode a (expected a) ;;
        Done {| random := snd drawn;
                result := Int.to_unsigned (result st + Z.b2z b);
                events := Invoke a :: events st |})).
Proof.
  split; [apply arg_forced |].
  split.
  - intros H. split; [apply arg_drawn, H |].
    rewrite (arg_drawn _ _ H). pose proof (land_FFFF_range r). lia.
  - intros jitCode st. unfold invocation.
    destruct (Random_next (random st)). reflexivity.
Qed.

(** The draw 123456 with the error rates 500 and 10. *)
Lemma arg_spec_witness :
  arg 123456 500 = -1 /\ arg 123456 10 = 57921.
Proof.
  split.
  - apply (arg_spec 123456 500). vm_compute. reflexivity.
  - apply (arg_spec 123456 10). vm_compute. discriminate.
Defined.

(** ** Loops *)

(** An invariant indexed by the number of turns made. *)
Lemma for_loop_invariant {St : Type} (body : Z -> St -> proc St) (n : nat) :
  forall (P : nat -> St -> Prop),
  (forall k i s s', (k < n)%nat -> P k s -> body i s = Done s' -> P (S k) s') ->
  forall i s s', P O s -> for_loop i n body s = Done s' -> P n s'.
Proof.
  induction n as [| n IH]; intros P Hstep i s s' H0 Hrun; cbn [for_loop] in Hrun.
  - injection Hrun as <-. exact H0.
  - destruct (body i s) as [s1 | c x] eqn:Hbody; cbn [bind] in Hrun;
      [| discriminate].
    apply (IH (fun k => P (S k))) with (i := i + 1) (s := s1).
    + intros k j t t' Hk. apply Hstep. lia.
    + apply (Hstep O i s s1); [lia | exact H0 | exact Hbody].
    + exact Hrun.
Qed.

(** A loop whose body never leaves comes to its end. *)
Lemma for_loop_total {St : Type} (body : Z -> St -> proc St) :
  (forall i s, exists s', body i s = Done s') ->
  forall n i s, exists s', for_loop i n body s = Done s'.
Proof.
  intros Hbody. induction n as [| n IH]; intros i s; cbn [for_loop].
  - eexists. reflexivity.
  - destruct (Hbody i s) as [s1 ->]. cbn [bind]. apply IH.
Qed.

(** ** One run *)

Lemma doTest_true jitCode input e b : doTest jitCode input e = Done b -> b = true.
Proof.
  unfold doTest.
  destruct (invoke jitCode callback input);
    [destruct ((r <? 0) || negb (r =? e)) | destruct (e >=? 0)];
    intros H; try discriminate; injection H as <-; reflexivity.
Qed.

(** The compiled [foo] passes the check on every input that a run makes. *)
Lemma doTest_new_passes a :
  a = -1 \/ 1 <= a <= 65536 ->
  doTest JITContainer_new a (expected a) = Done true.
Proof.
  intros [-> | H]; [reflexivity |].
  unfold doTest. rewrite invoke_new, callback_returns by lia.
  pose proof (expected_nonneg a H) as Hpos.
  destruct (Z.ltb_spec (expected a) 0); [lia |].
  rewrite Z.eqb_refl. reflexivity.
Qed.

Lemma invocation_done errorRate jitCode st st' :
  invocation errorRate jitCode st = Done st' ->
  result st' = Int.to_unsigned (result st + 1) /\
  exists a, events st' = Invoke a :: events st.
Proof.
  unfold invocation. destruct (Random_next (random st)) as [r random'].
  destruct (doTest jitCode _ _) as [b | c x] eqn:Hcheck; cbn [bind];
    [| discriminate].
  apply doTest_true in Hcheck. subst b.
  intros H. injection H as <-. cbn. split; [reflexivity | eauto].
Qed.

Lemma invocation_new_total errorRate st :
  exists st', invocation errorRate JITContainer_new st = Done st'.
Proof.
  unfold invocation. destruct (Random_next (random st)) as [r random'].
  rewrite doTest_new_passes by apply arg_cases.
  cbn [bind]. eexists. reflexivity.
Qed.

(** The inner loop: [n] calls, each adding 1 to [result]. *)
Lemma invocations_done errorRate jitCode n i st st' :
  0 <= result st -> result st + Z.of_nat n < Int.modulus32 ->
  for_loop i n (fun _ => invocation errorRate jitCode) st = Done st' ->
  result st' = result st + Z.of_nat n /\
  exists inputs, List.length inputs = n /\
    events st' = (rev (map Invoke inputs) ++ events st)%list.
Proof.
  intros H0 Hmax Hrun.
  apply (for_loop_invariant _ n
           (fun k s => result s = result st + Z.of_nat k /\
              exists inputs, List.length inputs = k /\
                events s = (rev (map Invoke inputs) ++ events st)%list))
    in Hrun; [exact Hrun | | ].
  - intros k j s s' Hk [Hres (inputs & Hlen & Hev)] Hbody.
    apply invocation_done in Hbody. destruct Hbody as [Hres' [a Hev']].
    split.
    + rewrite Hres', Hres, to_unsigned_id; [lia |].
      unfold Int.is_unsigned. lia.
    + exists (inputs ++ [a])%list. split.
      * rewrite List.length_app, Hlen. cbn. lia.
      * rewrite Hev', Hev, map_app, rev_app_distr. reflexivity.
  - split; [cbn; lia |]. exists []. split; reflexivity.
Qed.

(** The outer loop's body: one container and [repeat] calls of it. *)
Lemma pass_done newJIT errorRate index st st' :
  0 <= result st -> result st + repeat < Int.modulus32 ->
  pass newJIT errorRate index st = Done st' ->
  result st' = result st + repeat /\
  exists inputs, Z.of_nat (List.length inputs) = repeat /\
    events st' = (rev (unit_events inputs) ++ events st)%list.
Proof.
  intros H0 Hmax. unfold pass.
  destruct (for_loop 0 (Z.to_nat repeat) _ _) as [s1 | c x] eqn:Hloop;
    cbn [bind]; [| discriminate].
  intros H. injection H as <-. cbn [result events].
  apply invocations_done in Hloop; cbn [result events] in *;
    [| exact H0 | rewrite Z2Nat.id by (unfold repeat; lia); exact Hmax].
  destruct Hloop as [Hres (inputs & Hlen & Hev)].
  rewrite Z2Nat.id in Hres by (unfold repeat; lia).
  split; [exact Hres |].
  exists inputs. split.
  - rewrite Hlen. apply Z2Nat.id. unfold repeat. lia.
  - rewrite Hev. unfold unit_events.
    cbn [rev]. rewrite rev_app_distr. cbn. rewrite <- app_assoc. reflexivity.
Qed.

Lemma pass_new_total errorRate index st :
  exists st', pass sound_engine errorRate index st = Done st'.
Proof.
  unfold pass.
  destruct (for_loop_total (fun _ => invocation errorRate JITContainer_new)
              (fun _ => invocation_new_total errorRate)
              (Z.to_nat repeat) 0
              {| random := random st; result := result st;
                 events := Construct :: events st |}) as [s1 Hs1].
  unfold sound_engine. rewrite Hs1. cbn [bind]. eexists. reflexivity.
Qed.

(** A run that comes to its end has made [functionRepeat] containers and
    called each of them [repeat] times, and every call has added 1 to
    [result]. *)
Lemma doTest_run_done newJIT elapsed errorRate seed rep :
  doTest_run newJIT elapsed errorRate seed = Done rep ->
  duration rep = Int.to_unsigned elapsed /\
  result (final rep) = functionRepeat * repeat /\
  cerr rep = EmptyString /\
  exists inputs,
    Z.of_nat (List.length inputs) = functionRepeat /\
    Forall (fun l => Z.of_nat (List.length l) = repeat) inputs /\
    rev (events (final rep)) = run_events inputs.
Proof.
  unfold doTest_run.
  destruct (for_loop 0 (Z.to_nat functionRepeat) _ _) as [s1 | c x] eqn:Hloop;
    cbn [bind]; [| discriminate].
  intros H. injection H as <-. cbn [duration cerr final].
  apply (for_loop_invariant _ _
           (fun k s => result s = Z.of_nat k * repeat /\
              exists inputs, List.length inputs = k /\
                Forall (fun l => Z.of_nat (List.length l) = repeat) inputs /\
                events s = rev (run_events inputs))) in Hloop.
  - destruct Hloop as [Hres (inputs & Hlen & Hall & Hev)].
    rewrite Z2Nat.id in Hres by (unfold functionRepeat; lia).
    split; [reflexivity |]. split; [exact Hres |]. split.
    + rewrite Hres. reflexivity.
    + exists inputs. split; [| split].
      * rewrite Hlen. apply Z2Nat.id. unfold functionRepeat. lia.
      * exact Hall.
      * rewrite Hev. apply rev_involutive.
  - intros k j s s' Hk [Hres (inputs & Hlen & Hall & Hev)] Hbody.
    assert (Hk' : Z.of_nat k < functionRepeat)
      by (apply Nat2Z.inj_lt in Hk;
          rewrite Z2Nat.id in Hk by (unfold functionRepeat; lia); exact Hk).
    unfold functionRepeat in Hk'.
    apply pass_done in Hbody;
      [| rewrite Hres; unfold repeat; lia
       | rewrite Hres; unfold repeat, Int.modulus32; lia].
    destruct Hbody as [Hres' (l & Hl & Hev')].
    split; [rewrite Hres', Hres; lia |].
    exists (inputs ++ [l])%list. split; [| split].
    + rewrite List.length_app, Hlen. cbn. lia.
    + apply Forall_app. split; [exact Hall | constructor; [exact Hl | constructor]].
    + rewrite Hev', Hev. unfold run_events.
      rewrite map_app, concat_app, rev_app_distr. cbn [map List.concat].
      rewrite app_nil_r. reflexivity.
  - split; [reflexivity |]. exists []. repeat split. constructor.
Qed.

(** With the compiled [foo] no check fails, and the run comes to its end. *)
Lemma doTest_run_total elapsed errorRate seed :
  exists rep, doTest_run sound_engine elapsed errorRate seed = Done rep.
Proof.
  unfold doTest_run.
  destruct (for_loop_total (pass sound_engine errorRate)
              (pass_new_total errorRate) (Z.to_nat functionRepeat) 0
              {| random := Random_new seed; result := 0; events := [] |})
    as [s1 Hs1].
  rewrite Hs1. cbn [bind]. eexists. reflexivity.
Qed.

(** ** The threads *)

Section ThreadsInvariant.

Variable newJIT : Z -> Z -> JITContainer.
Variable elapsed : Z -> Z.
Variables errorRate threadCount : Z.
Hypothesis threadCount_unsigned : Int.is_unsigned threadCount.

#[local] Abbreviation thread_step := (thread_step newJIT elapsed errorRate).
#[local] Abbreviation step := (step newJIT elapsed errorRate threadCount).
#[local] Abbreviation reachable := (reachable newJIT elapsed errorRate threadCount).
#[local] Abbreviation thread_ok := (thread_ok newJIT elapsed errorRate).
#[local] Abbreviation invariant := (invariant newJIT elapsed errorRate threadCount).

Lemma reachable_init :
  reachable (doTestMultithreaded newJIT elapsed errorRate threadCount).
Proof. apply rtn1_refl. Qed.

Lemma reachable_step c c' : reachable c -> step c c' -> reachable c'.
Proof. intros Hc Hs. eapply rtn1_trans; eassumption. Qed.

(** A step of a worker keeps its index and does not lower the maximum. *)
Lemma thread_step_index t m t' m' :
  thread_step t m t' m' -> thread_index t' = thread_index t.
Proof. intros H. destruct H; reflexivity. Qed.

Lemma thread_step_mono t m t' m' : thread_step t m t' m' -> m <= m'.
Proof. intros H. destruct H; lia. Qed.

Lemma thread_step_ok t m t' m' :
  thread_step t m t' m' -> thread_ok m t -> thread_ok m' t'.
Proof.
  intros H. destruct H; cbn.
  - intros _. exists rep. split; [assumption | reflexivity].
  - intros Hm. split; [exact Hm | lia].
  - intros [Hm Hc]. split; [exact Hm | lia].
  - intros [Hm Hc]. split; [exact Hm | lia].
  - intros [Hm Hc]. split; [exact Hm | lia].
Qed.

Lemma thread_ok_mono m m' t : m <= m' -> thread_ok m t -> thread_ok m' t.
Proof.
  intros Hle. destruct t; cbn; try tauto; intros [Hm Hc]; (split; [exact Hm | lia]).
Qed.

(** A worker that is done makes no step. *)
Lemma finished_stuck t m t' m' : thread_step t m t' m' -> ~ finished t.
Proof. intros H. destruct H; cbn; tauto. Qed.

Lemma nth_error_middle {A : Type} (l1 l2 : list A) (x : A) :
  nth_error (l1 ++ x :: l2) (length l1) = Some x.
Proof.
  rewrite nth_error_app2 by lia. rewrite Nat.sub_diag. reflexivity.
Qed.

Lemma nth_error_replaced {A : Type} (l1 l2 : list A) (x y : A) j :
  j <> length l1 ->
  nth_error (l1 ++ y :: l2) j = nth_error (l1 ++ x :: l2) j.
Proof.
  intros Hj. destruct (Nat.lt_ge_cases j (length l1)) as [Hlt | Hge].
  - rewrite !nth_error_app1 by exact Hlt. reflexivity.
  - rewrite !nth_error_app2 by exact Hge.
    destruct (j - length l1)%nat as [| k] eqn:E; [lia | reflexivity].
Qed.

Lemma Forall_finished_nth (ts : list thread) :
  (forall j, (j < length ts)%nat ->
     exists t, nth_error ts j = Some t /\ finished t) ->
  Forall finished ts.
Proof.
  intros H. apply Forall_forall. intros t Hin.
  apply In_nth_error in Hin. destruct Hin as [j Hj].
  assert (Hlt : (j < length ts)%nat)
    by (apply nth_error_Some; rewrite Hj; discriminate).
  destruct (H j Hlt) as (t0 & Ht0 & Hfin).
  rewrite Hj in Ht0. injection Ht0 as <-. exact Hfin.
Qed.

Lemma invariant_init :
  invariant (doTestMultithreaded newJIT elapsed errorRate threadCount).
Proof.
  unfold doTestMultithreaded.
  destruct (Z.leb_spec threadCount 1); cbn.
  - split; [assumption | reflexivity].
  - destruct threadCount_unsigned.
    repeat split; try lia. constructor.
Qed.

Lemma invariant_step c c' : invariant c -> step c c' -> invariant c'.
Proof.
  intros Hinv Hstep.
  destruct Hstep as
    [ index ts m Hne | ts m | k ts m i d Hk | ts m
    | main ts1 t ts2 m t' m' Ht | main ts1 i ts2 m c x Hexit ];
    cbn in Hinv |- *.
  - (* spawn *)
    destruct Hinv as (Hn & Hidx & Hok & Hindex & Hle).
    destruct threadCount_unsigned as [_ Hmax].
    unfold Int.modulus32 in Hmax.
    split; [exact Hn |]. split; [| split; [| split]].
    + rewrite length_app, map_app, Hidx. cbn [length map].
      rewrite Nat.add_1_r, seq_S, map_app. cbn. rewrite Hindex. reflexivity.
    + apply Forall_app. split; [exact Hok | constructor; [exact I | constructor]].
    + rewrite to_unsigned_id by (unfold Int.is_unsigned, Int.modulus32; lia).
      rewrite length_app. cbn [length]. lia.
    + rewrite to_unsigned_id by (unfold Int.is_unsigned, Int.modulus32; lia).
      lia.
  - (* all spawned *)
    destruct Hinv as (Hn & Hidx & Hok & Hindex & Hle).
    repeat split; try assumption; lia.
  - (* join *)
    destruct Hinv as (Hn & Hidx & Hok & Hlen & Hjoined).
    repeat split; try assumption.
    intros j Hj. destruct (Nat.eq_dec j k) as [-> | Hjk].
    + eexists. split; [exact Hk | exact I].
    + apply Hjoined. lia.
  - (* all joined *)
    destruct Hinv as (Hn & Hidx & Hok & Hlen & Hjoined).
    repeat split; try assumption.
    apply Forall_finished_nth, Hjoined.
  - (* a worker *)
    destruct Hinv as (Hn & Hidx & Hok & Hmain).
    apply Forall_app in Hok. destruct Hok as [Hok1 Hok2].
    inversion Hok2 as [| t0 l0 Hokt Hok2' ]; subst.
    pose proof (thread_step_mono _ _ _ _ Ht) as Hmono.
    split; [exact Hn |]. split; [| split].
    + rewrite length_app, map_app in *. cbn [map length] in *.
      rewrite (thread_step_index _ _ _ _ Ht). exact Hidx.
    + apply Forall_app. split.
      * eapply Forall_impl; [| exact Hok1]. intros a. apply thread_ok_mono, Hmono.
      * constructor; [eapply thread_step_ok; eassumption |].
        eapply Forall_impl; [| exact Hok2']. intros a. apply thread_ok_mono, Hmono.
    + destruct main as [index | k | r]; cbn in Hmain |- *.
      * rewrite length_app in *. cbn [length] in *. exact Hmain.
      * destruct Hmain as [Hlen Hjoined].
        split; [rewrite length_app in *; cbn [length] in *; exact Hlen |].
        intros j Hj. destruct (Nat.eq_dec j (length ts1)) as [-> | Hne].
        -- destruct (Hjoined _ Hj) as (t0 & Ht0 & Hfin).
           rewrite nth_error_middle in Ht0. injection Ht0 as <-.
           exfalso. exact (finished_stuck _ _ _ _ Ht Hfin).
        -- rewrite (nth_error_replaced ts1 ts2 t t' j Hne). apply Hjoined, Hj.
      * destruct Hmain as (Hlen & Hr & Hall).
        apply Forall_app in Hall. destruct Hall as [_ Hall].
        inversion Hall as [| t0 l0 Hfin _]; subst.
        exfalso. exact (finished_stuck _ _ _ _ Ht Hfin).
  - (* exit *)
    exists i. exact Hexit.
Qed.

Lemma reachable_invariant c : reachable c -> invariant c.
Proof.
  intros H. induction H as [| c c' Hstep Hreach IH].
  - apply invariant_init.
  - eapply invariant_step; eassumption.
Qed.

Lemma In_replaced {A : Type} (l1 l2 : list A) (x y a : A) :
  In a (l1 ++ x :: l2) -> a <> x -> In a (l1 ++ y :: l2).
Proof.
  intros Hin Hne. apply in_app_or in Hin. apply in_or_app.
  destruct Hin as [Hin | [Heq | Hin]].
  - left. exact Hin.
  - congruence.
  - right. right. exact Hin.
Qed.

Lemma max_attained_step c c' : max_attained c -> step c c' -> max_attained c'.
Proof.
  intros Hatt Hstep.
  destruct Hstep as
    [ index ts m Hne | ts m | k ts m i d Hk | ts m
    | main ts1 t ts2 m t' m' Ht | main ts1 i ts2 m c x Hexit ];
    cbn in Hatt |- *; try exact Hatt; try exact I.
  - destruct Hatt as [-> | [i Hin]]; [left; reflexivity | right].
    exists i. apply in_or_app. left. exact Hin.
  - destruct Ht as [i m rep Hrun | i d m | i d c m Hle | i d c Hgt | i d c m Hgt].
    + destruct Hatt as [-> | [j Hin]]; [left; reflexivity | right].
      exists j. eapply In_replaced; [exact Hin | discriminate].
    + destruct Hatt as [-> | [j Hin]]; [left; reflexivity | right].
      exists j. eapply In_replaced; [exact Hin | discriminate].
    + destruct Hatt as [-> | [j Hin]]; [left; reflexivity | right].
      exists j. eapply In_replaced; [exact Hin | discriminate].
    + right. exists i. apply in_or_app. right. left. reflexivity.
    + destruct Hatt as [-> | [j Hin]]; [left; reflexivity | right].
      exists j. eapply In_replaced; [exact Hin | discriminate].
Qed.

Lemma reachable_max_attained c : reachable c -> max_attained c.
Proof.
  intros H. induction H as [| c c' Hstep Hreach IH].
  - unfold doTestMultithreaded. destruct (threadCount <=? 1); cbn; tauto.
  - eapply max_attained_step; eassumption.
Qed.

(** Once every thread is done the caller can join them all and return. *)
Lemma reachable_joining ts m :
  Forall finished ts ->
  reachable (Multi (Joining 0) ts m) ->
  forall k, (k <= length ts)%nat -> reachable (Multi (Joining k) ts m).
Proof.
  intros Hall H0. induction k as [| k IH]; intros Hk; [exact H0 |].
  destruct (nth_error ts k) as [t |] eqn:Hnth.
  - assert (Hfin : finished t).
    { rewrite Forall_forall in Hall. apply Hall.
      eapply nth_error_In. exact Hnth. }
    destruct t as [i | i d | i d c | i d]; cbn in Hfin; try tauto.
    eapply reachable_step; [apply IH; lia |].
    eapply step_join. exact Hnth.
  - apply nth_error_None in Hnth. lia.
Qed.

Lemma reachable_returned ts m :
  Forall finished ts ->
  reachable (Multi (Joining 0) ts m) ->
  reachable (Multi (Returned m) ts m).
Proof.
  intros Hall H0.
  eapply reachable_step; [apply (reachable_joining ts m Hall H0 (length ts)); lia |].
  apply step_joined.
Qed.

(** The caller can spawn its threads one after the other. *)
Lemma reachable_spawning (k : nat) :
  1 < threadCount -> Z.of_nat k <= threadCount ->
  reachable (Multi (Spawning (Z.of_nat k))
                   (map Spawned (map Z.of_nat (seq 0 k))) 0).
Proof.
  intros Hn. induction k as [| k IH]; intros Hk.
  - pose proof reachable_init as H. unfold doTestMultithreaded in H.
    destruct (Z.leb_spec threadCount 1); [lia | exact H].
  - apply (reachable_step (Multi (Spawning (Z.of_nat k))
                                 (map Spawned (map Z.of_nat (seq 0 k))) 0)).
    + apply IH. lia.
    + rewrite seq_S, !map_app. cbn [map Nat.add].
      replace (Z.of_nat (S k)) with (Int.to_unsigned (Z.of_nat k + 1)).
      * apply step_spawn. lia.
      * destruct threadCount_unsigned as [_ Hmax].
        rewrite to_unsigned_id by (unfold Int.is_unsigned; lia). lia.
Qed.

Lemma reachable_spawned :
  1 < threadCount ->
  reachable (Multi (Joining 0)
               (map Spawned (map Z.of_nat (seq 0 (Z.to_nat threadCount)))) 0).
Proof.
  intros Hn.
  eapply reachable_step.
  - apply (reachable_spawning (Z.to_nat threadCount)); lia.
  - rewrite Z2Nat.id by lia. apply step_spawned.
Qed.

End ThreadsInvariant.

(** *** The threads one after the other *)

Section SequentialSchedule.

Variable elapsed : Z -> Z.
Variables errorRate threadCount : Z.
Hypothesis threadCount_unsigned : Int.is_unsigned threadCount.
Hypothesis several : 1 < threadCount.

#[local] Abbreviation engine := (fun _ : Z => sound_engine).
#[local] Abbreviation reachable :=
  (reachable engine elapsed errorRate threadCount).
#[local] Abbreviation d := (fun i : Z => Int.to_unsigned (elapsed i)).

(** A thread that runs alone, with the compiled [foo], from its start to
    its end raises the maximum to its duration when that is larger. *)
Lemma reachable_thread_done main ts1 i ts2 m :
  reachable (Multi main (ts1 ++ Spawned i :: ts2) m) ->
  reachable (Multi main (ts1 ++ Finished i (d i) :: ts2) (Z.max m (d i))).
Proof.
  intros R.
  destruct (doTest_run_total (elapsed i) errorRate i) as [rep Hrep].
  assert (Hd : duration rep = d i)
    by (apply doTest_run_done in Hrep; destruct Hrep as [-> _]; reflexivity).
  apply reachable_step
    with (c' := Multi main (ts1 ++ Measured i (d i) :: ts2) m) in R.
  2:{ rewrite <- Hd. apply step_thread, step_run. exact Hrep. }
  apply reachable_step
    with (c' := Multi main (ts1 ++ Retrying i (d i) m :: ts2) m) in R.
  2:{ apply step_thread, step_load. }
  destruct (Z_le_gt_dec (d i) m) as [Hle | Hgt].
  - rewrite Z.max_l by lia.
    eapply reachable_step; [exact R |].
    apply step_thread, step_leave. exact Hle.
  - rewrite Z.max_r by lia.
    eapply reachable_step; [exact R |].
    apply step_thread, step_swap. exact Hgt.
Qed.

Lemma reachable_sequential j :
  (j <= Z.to_nat threadCount)%nat ->
  reachable (Multi (Joining 0) (threads_after d (Z.to_nat threadCount) j)
                   (max_upto d j)).
Proof.
  induction j as [| j IH]; intros Hj.
  - unfold threads_after. cbn [seq map app max_upto].
    rewrite Nat.sub_0_r, <- map_map.
    apply reachable_spawned; assumption.
  - specialize (IH ltac:(lia)). unfold threads_after in *.
    replace (Z.to_nat threadCount - j)%nat
      with (S (Z.to_nat threadCount - S j)) in IH by lia.
    cbn [seq map] in IH.
    apply reachable_thread_done in IH.
    rewrite seq_S, map_app, <- app_assoc. cbn [Nat.add map app max_upto].
    exact IH.
Qed.

(** With the compiled [foo] the caller can return, and then with the
    largest of the durations. *)
Lemma reachable_return :
  reachable
    (Multi (Returned (max_upto d (Z.to_nat threadCount)))
           (threads_after d (Z.to_nat threadCount) (Z.to_nat threadCount))
           (max_upto d (Z.to_nat threadCount))).
Proof.
  apply reachable_returned.
  - unfold threads_after. rewrite Nat.sub_diag. cbn [seq map].
    rewrite app_nil_r. apply Forall_forall. intros t Hin.
    apply in_map_iff in Hin. destruct Hin as (i & <- & _). exact I.
  - apply reachable_sequential. lia.
Qed.

End SequentialSchedule.

(** C6.  With a thread count of at most 1 the test is one run seeded with
    0, made by the caller, and no thread exists.  With a thread count
    N > 1 the caller spawns threads until there are N of them; the thread
    at place i of the vector has index i, there are never more than N, and
    there are N once the caller has left the spawning loop; the duration
    of a thread is the one returned by the run seeded with its index.  A
    run that comes to its end has made 10 containers and has called each
    10000 times, and with the compiled [foo] every run comes to its end. *)
Theorem orchestration newJIT elapsed errorRate threadCount :
  Int.is_unsigned threadCount ->
  (threadCount <= 1 ->
   doTestMultithreaded newJIT elapsed errorRate threadCount
     = Single (doTest_run (newJIT 0) (elapsed 0) errorRate 0) /\
   forall c, reachable newJIT elapsed errorRate threadCount c ->
     c = Single (doTest_run (newJIT 0) (elapsed 0) errorRate 0)) /\
  (1 < threadCount ->
   reachable newJIT elapsed errorRate threadCount
     (Multi (Joining 0)
        (map Spawned (map Z.of_nat (seq 0 (Z.to_nat threadCount)))) 0) /\
   forall main ts m,
     reachable newJIT elapsed errorRate threadCount (Multi main ts m) ->
     map thread_index ts = map Z.of_nat (seq 0 (length ts)) /\
     Z.of_nat (length ts) <= threadCount /\
     ((forall index, main <> Spawning index) ->
      Z.of_nat (length ts) = threadCount) /\
     Forall (thread_ok newJIT elapsed errorRate m) ts) /\
  (forall seed rep,
     doTest_run (newJIT seed) (elapsed seed) errorRate seed = Done rep ->
     exists inputs,
       Z.of_nat (length inputs) = 10 /\
       Forall (fun l => Z.of_nat (length l) = 10000) inputs /\
       rev (events (final rep)) = run_events inputs) /\
  (forall seed,
     exists rep, doTest_run sound_engine (elapsed seed) errorRate seed = Done rep).
Proof.
  intros Hu. split; [| split; [| split]].
  - intros Hle.
    assert (Hinit : doTestMultithreaded newJIT elapsed errorRate threadCount
                    = Single (doTest_run (newJIT 0) (elapsed 0) errorRate 0)).
    { unfold doTestMultithreaded.
      destruct (Z.leb_spec threadCount 1); [reflexivity | lia]. }
    split; [exact Hinit |].
    intros c Hc. induction Hc as [| c c' Hstep Hreach IH].
    + exact Hinit.
    + subst c. inversion Hstep.
  - intros Hn. split; [apply reachable_spawned; assumption |].
    intros main ts m Hc.
    apply reachable_invariant in Hc; [| exact Hu].
    destruct Hc as (_ & Hidx & Hok & Hmain).
    split; [exact Hidx |].
    destruct main as [index | k | r]; cbn in Hmain.
    + repeat split; try assumption; try lia.
      intros H. exfalso. exact (H index eq_refl).
    + repeat split; try assumption; try lia; tauto.
    + repeat split; try assumption; try lia; tauto.
  - intros seed rep Hrun.
    apply doTest_run_done in Hrun.
    destruct Hrun as (_ & _ & _ & inputs & Hlen & Hall & Hev).
    exists inputs. repeat split; assumption.
  - intros seed. apply doTest_run_total.
Qed.

(** One thread, and two threads once both are spawned. *)
Lemma orchestration_witness :
  doTestMultithreaded (fun _ => sound_engine) (fun _ => 0) 0 1
    = Single (doTest_run sound_engine 0 0 0) /\
  reachable (fun _ => sound_engine) (fun _ => 0) 0 2
    (Multi (Joining 0) [Spawned 0; Spawned 1] 0).
Proof.
  assert (H1 : Int.is_unsigned 1) by (unfold Int.is_unsigned, Int.modulus32; lia).
  assert (H2 : Int.is_unsigned 2) by (unfold Int.is_unsigned, Int.modulus32; lia).
  destruct (orchestration (fun _ => sound_engine) (fun _ => 0) 0 1 H1)
    as (Hsingle & _).
  destruct (orchestration (fun _ => sound_engine) (fun _ => 0) 0 2 H2)
    as (_ & Hmulti & _).
  split.
  - apply (proj1 (Hsingle ltac:(lia))).
  - apply (proj1 (Hmulti ltac:(lia))).
Defined.

(** Two threads that run one after the other, with durations 5 and 6. *)
Lemma two_threads_return :
  reachable (fun _ => sound_engine) (fun i => 5 + i) 0 2
    (Multi (Returned 6) [Finished 0 5; Finished 1 6] 6).
Proof.
  set (E := fun _ : Z => sound_engine).
  set (T := fun i : Z => 5 + i).
  assert (Hu : Int.is_unsigned 2) by (unfold Int.is_unsigned, Int.modulus32; lia).
  pose proof (reachable_spawned E T 0 2 Hu ltac:(lia)) as R.
  change (map Spawned (map Z.of_nat (seq 0 (Z.to_nat 2))))
    with [Spawned 0; Spawned 1] in R.
  destruct (doTest_run_total (T 0) 0 0) as [rep0 Hrep0].
  destruct (doTest_run_total (T 1) 0 1) as [rep1 Hrep1].
  assert (Hd0 : duration rep0 = 5)
    by (apply doTest_run_done in Hrep0; destruct Hrep0 as [-> _]; reflexivity).
  assert (Hd1 : duration rep1 = 6)
    by (apply doTest_run_done in Hrep1; destruct Hrep1 as [-> _]; reflexivity).
  (* the first thread *)
  apply reachable_step with (c' := Multi (Joining 0) [Measured 0 5; Spawned 1] 0) in R.
  2:{ rewrite <- Hd0.
      apply (step_thread E T 0 2 (Joining 0) [] (Spawned 0) [Spawned 1] 0).
      apply step_run. exact Hrep0. }
  apply reachable_step with (c' := Multi (Joining 0) [Retrying 0 5 0; Spawned 1] 0) in R.
  2:{ apply (step_thread E T 0 2 (Joining 0) [] (Measured 0 5) [Spawned 1] 0).
      apply step_load. }
  apply reachable_step with (c' := Multi (Joining 0) [Finished 0 5; Spawned 1] 5) in R.
  2:{ apply (step_thread E T 0 2 (Joining 0) [] (Retrying 0 5 0) [Spawned 1] 0).
      apply step_swap. lia. }
  (* the second thread *)
  apply reachable_step with (c' := Multi (Joining 0) [Finished 0 5; Measured 1 6] 5) in R.
  2:{ rewrite <- Hd1.
      apply (step_thread E T 0 2 (Joining 0) [Finished 0 5] (Spawned 1) [] 5).
      apply step_run. exact Hrep1. }
  apply reachable_step with (c' := Multi (Joining 0) [Finished 0 5; Retrying 1 6 5] 5) in R.
  2:{ apply (step_thread E T 0 2 (Joining 0) [Finished 0 5] (Measured 1 6) [] 5).
      apply step_load. }
  apply reachable_step with (c' := Multi (Joining 0) [Finished 0 5; Finished 1 6] 6) in R.
  2:{ apply (step_thread E T 0 2 (Joining 0) [Finished 0 5] (Retrying 1 6 5) [] 5).
      apply step_swap. lia. }
  (* the caller *)
  apply reachable_step with (c' := Multi (Joining 1) [Finished 0 5; Finished 1 6] 6) in R.
  2:{ apply (step_join E T 0 2 0 _ 6 0 5). reflexivity. }
  apply reachable_step with (c' := Multi (Joining 2) [Finished 0 5; Finished 1 6] 6) in R.
  2:{ apply (step_join E T 0 2 1 _ 6 1 6). reflexivity. }
  apply reachable_step with (c' := Multi (Returned 6) [Finished 0 5; Finished 1 6] 6) in R.
  2:{ apply (step_joined E T 0 2 [Finished 0 5; Finished 1 6] 6). }
  exact R.
Qed.

(** C7.  From the test of its loop a thread either swaps its duration in,
    which needs the shared value to be the one it has read and its
    duration to be larger, and is done; or finds its duration not larger
    than the value it has read, and is done without a swap; or fails to
    swap, reads the shared value and is at the test again.  It can always
    make one of these steps, whatever the other threads do.  The value a
    thread has read is never above the shared value.  When the caller has
    returned r, all [threadCount] threads are done and r is at least the
    duration of each, which is the one its run has returned; and r is the
    duration of one of them, or 0.  With the compiled [foo] the caller can
    return. *)
Theorem max_duration newJIT elapsed errorRate threadCount :
  Int.is_unsigned threadCount ->
  (forall i d c m t' m',
     thread_step newJIT elapsed errorRate (Retrying i d c) m t' m' ->
     (t' = Finished i d /\ d > c /\ m = c /\ m' = d) \/
     (t' = Finished i d /\ d <= c /\ m' = m) \/
     (t' = Retrying i d m /\ d > c /\ m' = m)) /\
  (forall t m t' m',
     thread_step newJIT elapsed errorRate t m t' m' ->
     finished t' -> exists i d c, t = Retrying i d c) /\
  (forall i d c m,
     exists t' m', thread_step newJIT elapsed errorRate (Retrying i d c) m t' m') /\
  (forall main ts m,
     reachable newJIT elapsed errorRate threadCount (Multi main ts m) ->
     Forall (thread_ok newJIT elapsed errorRate m) ts) /\
  (forall ts m r,
     reachable newJIT elapsed errorRate threadCount (Multi (Returned r) ts m) ->
     Z.of_nat (length ts) = threadCount /\
     Forall (fun t => exists i d,
               t = Finished i d /\
               measured newJIT elapsed errorRate i d /\ d <= r) ts /\
     (r = 0 \/ exists i, In (Finished i r) ts)) /\
  (1 < threadCount ->
   exists r ts,
     reachable (fun _ => sound_engine) elapsed errorRate threadCount
       (Multi (Returned r) ts r)).
Proof.
  intros Hu. split; [| split; [| split; [| split; [| split]]]].
  - intros i d c m t' m' H. inversion H; subst; tauto.
  - intros t m t' m' H Hfin. destruct H; cbn in Hfin; try tauto; eauto.
  - intros i d c m. destruct (Z_le_gt_dec d c) as [Hle | Hgt].
    + do 2 eexists. apply step_leave. exact Hle.
    + do 2 eexists. apply step_retry. exact Hgt.
  - intros main ts m Hc.
    apply reachable_invariant in Hc; [| exact Hu]. apply Hc.
  - intros ts m r Hc.
    pose proof (reachable_max_attained _ _ _ _ _ Hc) as Hatt.
    apply reachable_invariant in Hc; [| exact Hu].
    destruct Hc as (_ & _ & Hok & Hlen & -> & Hfin).
    split; [exact Hlen |]. split; [| exact Hatt].
    rewrite Forall_forall in *. intros t Hin.
    specialize (Hok t Hin). specialize (Hfin t Hin).
    destruct t as [i | i d | i d c | i d]; cbn in Hfin; try tauto.
    exists i, d. cbn in Hok. tauto.
  - intros Hn. do 2 eexists.
    apply reachable_return; assumption.
Qed.

(** The two threads above: the caller returns 6, the larger duration. *)
Lemma max_duration_witness :
  Forall (fun t => exists i d,
            t = Finished i d /\
            measured (fun _ => sound_engine) (fun i => 5 + i) 0 i d /\ d <= 6)
    [Finished 0 5; Finished 1 6].
Proof.
  assert (Hu : Int.is_unsigned 2) by (unfold Int.is_unsigned, Int.modulus32; lia).
  destruct (max_duration (fun _ => sound_engine) (fun i => 5 + i) 0 2 Hu)
    as (_ & _ & _ & _ & Hret & _).
  apply (Hret _ 6 6 two_threads_return).
Defined.

(** C10.  The check returns true whenever it returns, and otherwise it
    has ended the process with status 1.  Hence a run that comes to its
    end has counted functionRepeat * repeat = 100000 in [result], which is
    not zero, and has not written the complaint about an invalid result.
    With the compiled [foo] the run does come to its end. *)
Theorem result_counts newJIT elapsed errorRate seed :
  (forall jitCode input e b, doTest jitCode input e = Done b -> b = true) /\
  (forall jitCode input e,
     doTest jitCode input e = Done true \/
     exists report, doTest jitCode input e = Exited report 1) /\
  (forall rep,
     doTest_run newJIT elapsed errorRate seed = Done rep ->
     result (final rep) = functionRepeat * repeat /\
     result (final rep) = 100000 /\
     result (final rep) <> 0 /\
     cerr rep = EmptyString) /\
  (exists rep, doTest_run sound_engine elapsed errorRate seed = Done rep).
Proof.
  split; [apply doTest_true |]. split; [| split].
  - intros jitCode input e. unfold doTest.
    destruct (invoke jitCode callback input);
      [destruct ((r <? 0) || negb (r =? e)) | destruct (e >=? 0)]; eauto.
  - intros rep Hrun. apply doTest_run_done in Hrun.
    destruct Hrun as (_ & Hres & Hcerr & _).
    rewrite Hres. repeat split; try assumption; try reflexivity.
    vm_compute. discriminate.
  - apply doTest_run_total.
Qed.

(** The run seeded with 0 at error rate 0. *)
Lemma result_counts_witness :
  exists rep,
    doTest_run sound_engine 0 0 0 = Done rep /\ result (final rep) = 100000.
Proof.
  destruct (result_counts sound_engine 0 0 0) as (_ & _ & Hcount & rep & Hrun).
  exists rep. split; [exact Hrun |].
  apply (Hcount rep Hrun).
Defined.

(** ** The default thread counts *)

Lemma adjacent_push R l x :
  adjacent R l -> (l <> [] -> R (back l) x) -> adjacent R (push_back l x).
Proof.
  unfold push_back, back. induction l as [| a l IH]; intros Hadj Hlast.
  - exact I.
  - destruct l as [| b l].
    + cbn. split; [apply Hlast; discriminate | exact I].
    + destruct Hadj as [Hab Hadj].
      change ((a :: b :: l) ++ [x])%list with (a :: ((b :: l) ++ [x]))%list.
      change (((b :: l) ++ [x]))%list with (b :: (l ++ [x]))%list.
      split; [exact Hab |].
      apply IH; [exact Hadj |].
      intros _. apply Hlast. discriminate.
Qed.

Lemma adjacent_removelast R l : adjacent R l -> adjacent R (removelast l).
Proof.
  induction l as [| a l IH]; intros Hadj; [exact I |].
  destruct l as [| b l]; [exact I |].
  destruct Hadj as [Hab Hadj]. specialize (IH Hadj).
  change (removelast (a :: b :: l)) with (a :: removelast (b :: l)).
  destruct l as [| c l]; [exact I |].
  change (removelast (b :: c :: l)) with (b :: removelast (c :: l)) in *.
  split; assumption.
Qed.

Lemma back_push l x : back (push_back l x) = x.
Proof. apply last_last. Qed.

Lemma back_Forall (P : Z -> Prop) l : l <> [] -> Forall P l -> P (back l).
Proof.
  intros Hne Hall. rewrite Forall_forall in Hall. apply Hall.
  destruct (exists_last Hne) as (l' & a & ->).
  unfold back. rewrite last_last. apply in_or_app. right. left. reflexivity.
Qed.

Lemma hd_push l x : l <> [] -> hd 0 (push_back l x) = hd 0 l.
Proof. destruct l; [congruence | reflexivity]. Qed.

(** The loop, started on a list that doubles up to its last element,
    returns within one turn for each doubling that fits below [maxCount],
    and one more. *)
Lemma buildThreadCounts_loop_spec maxCount :
  1 <= maxCount <= 2 ^ 31 ->
  forall f l,
    l <> [] -> hd 0 l = 1 -> doubling l -> increasing l ->
    Forall (fun x => 1 <= x <= maxCount) l ->
    maxCount <= back l * 2 ^ Z.of_nat f ->
    exists l',
      buildThreadCounts_loop (S f) maxCount l = Some l' /\
      hd 0 l' = 1 /\ doubling (removelast l') /\ increasing l' /\
      Forall (fun x => 1 <= x <= maxCount) l' /\ back l' = maxCount.
Proof.
  intros Hmax. induction f as [| f IH]; intros l Hne Hhd Hdbl Hinc Hall Hfuel;
    pose proof (back_Forall _ l Hne Hall) as Hback; cbn beta in Hback.
  - cbn [buildThreadCounts_loop]. cbn in Hfuel.
    destruct (Z.ltb_spec (back l) maxCount); [lia |].
    exists l. repeat split; try assumption; try lia.
    apply adjacent_removelast, Hdbl.
  - cbn [buildThreadCounts_loop].
    destruct (Z.ltb_spec (back l) maxCount) as [Hlt | Hge].
    + rewrite to_unsigned_id
        by (unfold Int.is_unsigned, Int.modulus32;
            change (2 ^ 31) with 2147483648 in Hmax; lia).
      destruct (Z_le_gt_dec (back l * 2) maxCount) as [Hfit | Hcap].
      * rewrite Z.min_l by exact Hfit.
        apply IH.
        -- unfold push_back. destruct l; discriminate.
        -- rewrite hd_push by exact Hne. exact Hhd.
        -- apply adjacent_push; [exact Hdbl | intros _; lia].
        -- apply adjacent_push; [exact Hinc | intros _; lia].
        -- apply Forall_app. split; [exact Hall |].
           constructor; [lia | constructor].
        -- rewrite back_push. rewrite Nat2Z.inj_succ, Z.pow_succ_r in Hfuel by lia.
           lia.
      * rewrite Z.min_r by lia.
        exists (push_back l maxCount).
        assert (Hstop : buildThreadCounts_loop (S f) maxCount (push_back l maxCount)
                        = Some (push_back l maxCount)).
        { cbn [buildThreadCounts_loop]. rewrite back_push.
          rewrite Z.ltb_irrefl. reflexivity. }
        split; [exact Hstop |]. split; [| split; [| split; [| split]]].
        -- rewrite hd_push by exact Hne. exact Hhd.
        -- unfold push_back. rewrite removelast_last. exact Hdbl.
        -- apply adjacent_push; [exact Hinc | intros _; lia].
        -- apply Forall_app. split; [exact Hall |].
           constructor; [lia | constructor].
        -- apply back_push.
    + exists l. repeat split; try assumption; try lia.
      apply adjacent_removelast, Hdbl.
Qed.

(** More fuel does not change what the loop returns. *)
Lemma buildThreadCounts_loop_more maxCount f : forall f' l l',
  (f <= f')%nat ->
  buildThreadCounts_loop f maxCount l = Some l' ->
  buildThreadCounts_loop f' maxCount l = Some l'.
Proof.
  induction f as [| f IH]; intros f' l l' Hle Hrun; [discriminate |].
  destruct f' as [| f']; [lia |].
  cbn [buildThreadCounts_loop] in *.
  destruct (back l <? maxCount); [| exact Hrun].
  apply IH; [lia | exact Hrun].
Qed.

(** Once 0 has been pushed the loop pushes 0 for ever. *)
Lemma buildThreadCounts_loop_stuck maxCount f : forall l,
  0 < maxCount -> back l = 0 -> buildThreadCounts_loop f maxCount l = None.
Proof.
  induction f as [| f IH]; intros l Hmax Hback; [reflexivity |].
  cbn [buildThreadCounts_loop]. rewrite Hback.
  destruct (Z.ltb_spec 0 maxCount); [| lia].
  apply IH; [exact Hmax |].
  rewrite back_push. change (Int.to_unsigned (0 * 2)) with 0. lia.
Qed.

(** C9, as it stands, fails for a [maxCount] above 2^31: after 2^31 the
    doubling wraps to 0 in 32 bits, 0 is pushed, and from then on the
    loop pushes 0 without end, so that no list is returned. *)
Lemma buildThreadCounts_wraps :
  Int.is_unsigned 2147483649 /\ 1 <= 2147483649 /\
  ~ exists fuel l, buildThreadCounts fuel 2147483649 = Some l.
Proof.
  split; [unfold Int.is_unsigned, Int.modulus32; lia |].
  split; [lia |].
  intros (fuel & l & Hrun).
  apply (buildThreadCounts_loop_more _ _ (32 + fuel)) in Hrun; [| lia].
  unfold buildThreadCounts in Hrun.
  assert (Hnone : buildThreadCounts_loop (32 + fuel) 2147483649 [1] = None).
  { change (buildThreadCounts_loop (32 + fuel) 2147483649 [1])
      with (buildThreadCounts_loop fuel 2147483649
              [1; 2; 4; 8; 16; 32; 64; 128; 256; 512; 1024; 2048; 4096; 8192;
               16384; 32768; 65536; 131072; 262144; 524288; 1048576; 2097152;
               4194304; 8388608; 16777216; 33554432; 67108864; 134217728;
               268435456; 536870912; 1073741824; 2147483648; 0]).
    apply buildThreadCounts_loop_stuck; [lia | reflexivity]. }
  congruence.
Qed.

(** From a positive [maxCount] up to 2^31, 33 tests of the condition are
    enough, and the list is as the doubling makes it. *)
Lemma buildThreadCounts_returns fuel maxCount :
  (33 <= fuel)%nat -> 1 <= maxCount <= 2 ^ 31 ->
  exists l,
    buildThreadCounts fuel maxCount = Some l /\
    hd 0 l = 1 /\
    increasing l /\
    doubling (removelast l) /\
    Forall (fun x => x <= maxCount) l /\
    back l = maxCount.
Proof.
  intros Hfuel Hmax.
  destruct (buildThreadCounts_loop_spec maxCount Hmax 32 [1])
    as (l & Hrun & Hhd & Hdbl & Hinc & Hall & Hback);
    try (cbn; tauto); try discriminate.
  - constructor; [lia | constructor].
  - change (back [1]) with 1. change (2 ^ Z.of_nat 32) with 4294967296.
    change (2 ^ 31) with 2147483648 in Hmax. lia.
  - exists l. split; [| repeat split; try assumption].
    + apply (buildThreadCounts_loop_more maxCount 33); assumption.
    + eapply Forall_impl; [| exact Hall]. cbn. intros; lia.
Qed.

(** C9, amended.  For every [maxCount] from 1 to 2^31 the list returned
    starts with 1, is strictly increasing, has each element but possibly
    the last double its predecessor, has no element above [maxCount] and
    ends with [maxCount]; for 0 it is the list of 1 alone.  The loop needs
    at most 33 tests of its condition. *)
Theorem buildThreadCounts_spec fuel maxCount :
  (33 <= fuel)%nat ->
  (maxCount = 0 -> buildThreadCounts fuel maxCount = Some [1]) /\
  (1 <= maxCount <= 2 ^ 31 ->
   exists l,
     buildThreadCounts fuel maxCount = Some l /\
     hd 0 l = 1 /\
     increasing l /\
     doubling (removelast l) /\
     Forall (fun x => x <= maxCount) l /\
     back l = maxCount).
Proof.
  intros Hfuel. split.
  - intros ->. destruct fuel as [| fuel]; [lia | reflexivity].
  - apply buildThreadCounts_returns, Hfuel.
Qed.

(** The lists for 0 and for 12 hardware threads. *)
Lemma buildThreadCounts_spec_witness :
  buildThreadCounts 33 0 = Some [1] /\
  exists l, buildThreadCounts 33 12 = Some l /\ back l = 12.
Proof.
  destruct (buildThreadCounts_spec 33 0 (le_n 33)) as (Hzero & _).
  destruct (buildThreadCounts_spec 33 12 (le_n 33)) as (_ & Hpos).
  split.
  - apply Hzero. reflexivity.
  - destruct Hpos as (l & Hrun & _ & _ & _ & _ & Hback).
    + change (2 ^ 31) with 2147483648. lia.
    + exists l. split; assumption.
Defined.

(** ** The thread counts given on the command line *)

Lemma substring_all s : substring 0 (String.length s) s = s.
Proof. induction s as [| c s IH]; cbn; [| rewrite IH]; reflexivity. Qed.

Lemma find_space_cons c desc :
  find_space (String c desc) =
    if Ascii.eqb c " " then Some O
    else match find_space desc with
         | Some n => Some (S n)
         | None => None
         end.
Proof.
  unfold find_space. cbn [index].
  destruct (Ascii.eqb_spec c " ") as [-> | Hc].
  - cbn [prefix]. destruct (ascii_dec " " " "); [| congruence].
    destruct desc; reflexivity.
  - cbn [prefix]. destruct (ascii_dec " " c); [congruence | reflexivity].
Qed.

(** Where the first space is, the description splits into its first
    piece and a shorter description that holds the other pieces. *)
Lemma find_space_tokens desc :
  match find_space desc with
  | None => tokens desc = [desc]
  | Some split =>
      tokens desc = substr 0 split desc :: tokens (substr_from (split + 1) desc)
      /\ (String.length (substr_from (split + 1) desc) < String.length desc)%nat
  end.
Proof.
  induction desc as [| c desc IH].
  - reflexivity.
  - rewrite find_space_cons. cbn [tokens].
    destruct (Ascii.eqb c " ").
    + unfold substr, substr_from. cbn.
      rewrite Nat.sub_0_r, substring_all. split; [reflexivity | lia].
    + destruct (find_space desc) as [n |].
      * destruct IH as [IH Hlen]. rewrite IH.
        unfold substr, substr_from in *. cbn. split; [reflexivity | lia].
      * rewrite IH. reflexivity.
Qed.

(** The loop calls [add] on the pieces from left to right, and has fuel
    left when it is given more than the length of the description. *)
Lemma interpretThreadCounts_loop_tokens fuel : forall desc threadCounts,
  (String.length desc < fuel)%nat ->
  interpretThreadCounts_loop fuel desc threadCounts
    = Some (add_all (tokens desc) threadCounts).
Proof.
  induction fuel as [| fuel IH]; intros desc threadCounts Hfuel; [lia |].
  cbn [interpretThreadCounts_loop].
  pose proof (find_space_tokens desc) as Hsplit.
  destruct (find_space desc) as [split |].
  - destruct Hsplit as [-> Hlen]. cbn [add_all].
    destruct (add (substr 0 split desc) threadCounts); [reflexivity |].
    apply IH. lia.
  - rewrite Hsplit. cbn [add_all].
    destruct (add desc threadCounts); reflexivity.
Qed.

Lemma interpretThreadCounts_tokens desc :
  interpretThreadCounts desc = Some (add_all (tokens desc) []).
Proof. apply interpretThreadCounts_loop_tokens. lia. Qed.

Lemma add_parses t threadCounts :
  parses t ->
  add t threadCounts = inr (threadCounts ++ counts [t]).
Proof.
  intros [v Hv]. unfold add, counts, count_of. cbn [map filter]. rewrite Hv.
  destruct (Int.to_unsigned v =? 0); cbn [negb];
    [rewrite app_nil_r |]; reflexivity.
Qed.

Lemma counts_cons t ts : counts (t :: ts) = (counts [t] ++ counts ts)%list.
Proof.
  unfold counts. cbn [map filter].
  destruct (negb (count_of t =? 0)); reflexivity.
Qed.

Lemma add_all_parses ts : forall threadCounts,
  Forall parses ts ->
  add_all ts threadCounts = inr (threadCounts ++ counts ts).
Proof.
  induction ts as [| t ts IH]; intros threadCounts Hall; cbn [add_all].
  - rewrite app_nil_r. reflexivity.
  - inversion Hall as [| t0 ts0 Ht Hts]; subst.
    rewrite (counts_cons t ts), (add_parses t threadCounts Ht), (IH _ Hts).
    rewrite app_assoc. reflexivity.
Qed.

(** The first piece that [std::stoi] refuses ends the loop with the
    exception. *)
Lemma add_all_throws ts1 t ts2 e threadCounts :
  Forall parses ts1 -> stoi t = inl e ->
  add_all (ts1 ++ t :: ts2) threadCounts = inl e.
Proof.
  revert threadCounts.
  induction ts1 as [| t1 ts1 IH]; intros threadCounts Hall Ht.
  - cbn. unfold add. rewrite Ht. reflexivity.
  - inversion Hall as [| t0 ts0 Ht1 Hts1]; subst.
    cbn [app add_all]. rewrite (add_parses t1 threadCounts Ht1).
    apply IH; assumption.
Qed.

Lemma counts_positive ts : Forall (fun c => 1 <= c < Int.modulus32) (counts ts).
Proof.
  unfold counts. apply Forall_forall. intros c Hin.
  apply filter_In in Hin. destruct Hin as [Hin Hnz].
  apply in_map_iff in Hin. destruct Hin as (t & <- & _).
  assert (Hrange : Int.is_unsigned (count_of t)).
  { unfold count_of. destruct (stoi t).
    - unfold Int.is_unsigned, Int.modulus32. lia.
    - apply to_unsigned_range. }
  destruct (Z.eqb_spec (count_of t) 0); [discriminate |].
  unfold Int.is_unsigned in Hrange. lia.
Qed.

(** A piece that starts with a digit is read as the number its digits
    spell, when that number is an [int]. *)
Lemma digits_nonneg s : forall acc, 0 <= acc -> 0 <= digits acc s.
Proof.
  induction s as [| c s IH]; intros acc Hacc; cbn [digits]; [exact Hacc |].
  unfold digit. destruct ((48 <=? nat_of_ascii c) && (nat_of_ascii c <=? 57))%nat eqn:E;
    [| exact Hacc].
  apply IH. apply andb_prop in E. destruct E as [E _].
  apply Nat.leb_le in E. lia.
Qed.

Lemma stoi_numeral t :
  starts_with_digit t = true -> digits 0 t <= Int.INT_MAX ->
  stoi t = inr (digits 0 t) /\ 0 <= digits 0 t.
Proof.
  intros Hstart Hmax.
  pose proof (digits_nonneg t 0 ltac:(lia)) as Hpos.
  split; [| exact Hpos].
  destruct t as [| c t]; [discriminate |].
  cbn [starts_with_digit] in Hstart.
  unfold digit in Hstart.
  destruct ((48 <=? nat_of_ascii c) && (nat_of_ascii c <=? 57))%nat eqn:E;
    [| discriminate].
  apply andb_prop in E. destruct E as [Elo Ehi].
  apply Nat.leb_le in Elo. apply Nat.leb_le in Ehi.
  assert (Hc : c = ascii_of_nat (nat_of_ascii c))
    by (symmetry; apply ascii_nat_embedding).
  assert (Hspace : isspace c = false).
  { unfold isspace.
    destruct (Nat.leb_spec (nat_of_ascii c) 13); [lia |].
    destruct (Nat.eqb_spec (nat_of_ascii c) 32); [lia |].
    rewrite andb_false_r. reflexivity. }
  unfold stoi. cbn [skip_spaces]. rewrite Hspace.
  assert (Hsign : (c <> "-" /\ c <> "+")%char).
  { split; intros ->; cbn in Elo; lia. }
  destruct Hsign as [Hminus Hplus].
  assert (Hstart' : starts_with_digit (String c t) = true).
  { cbn [starts_with_digit]. unfold digit.
    destruct (Nat.leb_spec 48 (nat_of_ascii c)); [| lia].
    destruct (Nat.leb_spec (nat_of_ascii c) 57); [| lia]. reflexivity. }
  assert (Hsel :
    match String c t with
    | String "-" s' => (true, s')
    | String "+" s' => (false, s')
    | _ => (false, String c t)
    end = (false, String c t)).
  { destruct c as [[] [] [] [] [] [] [] []]; try reflexivity; congruence. }
  rewrite Hsel, Hstart'.
  unfold Int.INT_MIN, Int.INT_MAX in *.
  destruct (Z.ltb_spec (digits 0 (String c t)) (-2147483648)); [lia |].
  destruct (Z.ltb_spec 2147483647 (digits 0 (String c t))); [lia |].
  reflexivity.
Qed.

(** ** The arguments *)

Lemma handle_unknown o rest threadCounts :
  o <> "--threads"%string \/ rest = [] ->
  handle_arguments (o :: rest) threadCounts
    = Return ("unknown option " ++ o ++ endl)%string 1.
Proof.
  intros H. cbn [handle_arguments].
  destruct (String.eqb_spec o "--threads") as [-> | Hne].
  - destruct H as [H | ->]; [congruence | reflexivity].
  - reflexivity.
Qed.

Lemma handle_threads desc rest threadCounts :
  Forall parses (tokens desc) ->
  handle_arguments ("--threads"%string :: desc :: rest) threadCounts
    = handle_arguments rest (counts (tokens desc)).
Proof.
  intros Hall. cbn [handle_arguments]. rewrite String.eqb_refl.
  rewrite interpretThreadCounts_tokens, add_all_parses by exact Hall.
  reflexivity.
Qed.

Lemma handle_threads_throws desc rest threadCounts ts1 t ts2 e :
  tokens desc = (ts1 ++ t :: ts2)%list -> Forall parses ts1 -> stoi t = inl e ->
  handle_arguments ("--threads"%string :: desc :: rest) threadCounts
    = Uncaught e.
Proof.
  intros Htok Hall Ht. cbn [handle_arguments]. rewrite String.eqb_refl.
  rewrite interpretThreadCounts_tokens, Htok.
  rewrite (add_all_throws ts1 t ts2 e [] Hall Ht). reflexivity.
Qed.

Lemma last_cons {A : Type} (l : list A) : forall a d, last (a :: l) d = last l a.
Proof.
  induction l as [| b l IH]; intros a d; [reflexivity |].
  change (last (a :: b :: l) d) with (last (b :: l) d).
  rewrite !IH. reflexivity.
Qed.

(** Options that parse set the thread counts one after the other. *)
Lemma handle_threads_options descs : forall rest threadCounts,
  Forall (fun desc => Forall parses (tokens desc)) descs ->
  handle_arguments (threads_options descs ++ rest) threadCounts
    = handle_arguments rest
        (last (map (fun desc => counts (tokens desc)) descs) threadCounts).
Proof.
  induction descs as [| desc descs IH]; intros rest threadCounts Hall.
  - reflexivity.
  - inversion Hall as [| d ds Hdesc Hdescs]; subst.
    change (threads_options (desc :: descs) ++ rest)%list
      with ("--threads"%string :: desc :: (threads_options descs ++ rest))%list.
    rewrite (handle_threads _ _ _ Hdesc), (IH _ _ Hdescs).
    cbn [map]. rewrite last_cons. reflexivity.
Qed.



(** C8, as it stands, fails on three command lines.  A count above
    2147483647 is a positive number that [std::stoi] refuses; two spaces
    in a row leave an empty piece, which it refuses too; and an argument
    that is no option is not reported when an exception has ended the
    program before. *)
Lemma threads_not_parsed :
  main 33 16 ["unwindingtest"; "--threads"; "3000000000"]%string
    = Uncaught out_of_range /\
  main 33 16 ["unwindingtest"; "--threads"; "1  2"]%string
    = Uncaught invalid_argument /\
  main 33 16 ["unwindingtest"; "--threads"; "x"; "--bogus"]%string
    = Uncaught invalid_argument.
Proof. repeat split; vm_compute; reflexivity. Qed.

(** C8, amended.  After options [--threads desc] in which [std::stoi]
    returns on every piece of every [desc]: an argument that is not
    [--threads], or is it without a value after it, makes [main] write
    "unknown option ", the argument and a new line on standard output and
    return 1, before any test; at the end of the arguments the thread
    counts are those of the last [desc], that is, for each of its pieces
    in turn what [std::stoi] returns, as an [unsigned], without the zeros,
    so that every count is from 1 to 2^32 - 1.  A piece that starts with a
    digit stands for the number that its digits spell, when that is at
    most 2147483647.  The first piece on which [std::stoi] throws ends the
    program with the exception. *)
Theorem handle_arguments_spec descs threadCounts :
  Forall (fun desc => Forall parses (tokens desc)) descs ->
  (forall o rest,
     o <> "--threads"%string \/ rest = [] ->
     handle_arguments (threads_options descs ++ o :: rest) threadCounts
       = Return ("unknown option " ++ o ++ endl)%string 1) /\
  handle_arguments (threads_options descs) threadCounts
    = Tests (last (map (fun desc => counts (tokens desc)) descs) threadCounts) /\
  Forall (fun desc =>
            interpretThreadCounts desc = Some (inr (counts (tokens desc))) /\
            Forall (fun c => 1 <= c < 2 ^ 32) (counts (tokens desc))) descs /\
  (forall t,
     starts_with_digit t = true -> digits 0 t <= Int.INT_MAX ->
     parses t /\ count_of t = digits 0 t) /\
  (forall desc rest ts1 t ts2 e,
     tokens desc = (ts1 ++ t :: ts2)%list -> Forall parses ts1 ->
     stoi t = inl e ->
     handle_arguments
       (threads_options descs ++ "--threads"%string :: desc :: rest)
       threadCounts = Uncaught e).
Proof.
  intros Hall. split; [| split; [| split; [| split]]].
  - intros o rest Ho.
    rewrite (handle_threads_options descs _ _ Hall). apply handle_unknown, Ho.
  - rewrite <- (app_nil_r (threads_options descs)).
    rewrite (handle_threads_options descs _ _ Hall). reflexivity.
  - eapply Forall_impl; [| exact Hall]. intros desc Hdesc. split.
    + rewrite interpretThreadCounts_tokens, add_all_parses by exact Hdesc.
      reflexivity.
    + apply counts_positive.
  - intros t Hstart Hmax.
    destruct (stoi_numeral t Hstart Hmax) as [Hstoi Hpos].
    split; [eexists; exact Hstoi |].
    unfold count_of. rewrite Hstoi. apply to_unsigned_id.
    unfold Int.is_unsigned, Int.modulus32, Int.INT_MAX in *. lia.
  - intros desc rest ts1 t ts2 e Htok Hts1 Ht.
    rewrite (handle_threads_options descs _ _ Hall).
    eapply handle_threads_throws; eassumption.
Qed.

(** Thread counts with a zero among them, then an unknown option or the
    end of the arguments. *)
Lemma handle_arguments_spec_witness :
  handle_arguments ["--threads"; "1 2 0 8"; "--fast"]%string [1; 2; 4]
    = Return ("unknown option --fast" ++ endl)%string 1 /\
  handle_arguments ["--threads"; "1 2 0 8"]%string [1; 2; 4] = Tests [1; 2; 8].
Proof.
  assert (Hall : Forall (fun desc => Forall parses (tokens desc))
                   ["1 2 0 8"%string]).
  { repeat constructor; eexists; vm_compute; reflexivity. }
  destruct (handle_arguments_spec ["1 2 0 8"%string] [1; 2; 4] Hall)
    as (Hunknown & Htests & _).
  split.
  - apply (Hunknown "--fast"%string []). right. reflexivity.
  - exact Htests.
Defined.

(** * More of the program *)

(** ** The sanity test *)

Lemma doTest_passes_iff jitCode input e :
  doTest jitCode input e = Done true <->
  match invoke jitCode callback input with
  | Returns r => 0 <= r /\ r = e
  | Throws _ => e < 0
  end.
Proof.
  unfold doTest. destruct (invoke jitCode callback input) as [r | x].
  - destruct (Z.ltb_spec r 0); destruct (Z.eqb_spec r e); cbn;
      split; intros Hyp; try discriminate; try reflexivity; lia.
  - unfold Z.geb. destruct (Z.compare_spec e 0); cbn;
      split; intros Hyp; try discriminate; try reflexivity; lia.
Qed.

Lemma doTest_exit_status jitCode input e cerr status :
  doTest jitCode input e = Exited cerr status ->
  status = 1 /\ exists got, cerr = unexpected input e got.
Proof.
  unfold doTest.
  destruct (invoke jitCode callback input) as [r | x];
    [destruct ((r <? 0) || negb (r =? e)) | destruct (e >=? 0)];
    intros H; try discriminate; injection H as <- <-; eauto.
Qed.

Lemma sanityTest_ends jitCode :
  sanityTest jitCode = Done tt \/
  exists cerr, sanityTest jitCode = Exited cerr 1.
Proof.
  unfold sanityTest.
  destruct (doTest jitCode 2 1) as [b2 | c s] eqn:E2; cbn [bind];
    [| apply doTest_exit_status in E2; destruct E2 as [-> _]; eauto].
  destruct (doTest jitCode 1 4) as [b1 | c s] eqn:E1; cbn [bind];
    [| apply doTest_exit_status in E1; destruct E1 as [-> _]; eauto].
  destruct (doTest jitCode 0 (-1)) as [b0 | c s] eqn:E0; cbn [bind];
    [| apply doTest_exit_status in E0; destruct E0 as [-> _]; eauto].
  destruct (doTest jitCode (-1) (-1)) as [bm | c s] eqn:Em; cbn [bind];
    [| apply doTest_exit_status in Em; destruct Em as [-> _]; eauto].
  left. reflexivity.
Qed.

(** The sanity test passes exactly on a container that returns 1 for 2
    and 4 for 1 and throws for 0 and for -1, whatever the value thrown;
    the compiled [foo] is such a container; and when the test does not
    pass, the process ends with status 1. *)
Theorem sanityTest_passes_iff jitCode :
  (sanityTest jitCode = Done tt <->
   invoke jitCode callback 2 = Returns 1 /\
   invoke jitCode callback 1 = Returns 4 /\
   (exists x, invoke jitCode callback 0 = Throws x) /\
   (exists x, invoke jitCode callback (-1) = Throws x)) /\
  sanityTest JITContainer_new = Done tt /\
  (sanityTest jitCode = Done tt \/
   exists cerr, sanityTest jitCode = Exited cerr 1).
Proof.
  assert (Hstep : forall input e (k : proc unit),
            (_ <- doTest jitCode input e ;; k) =
            match doTest jitCode input e with
            | Done _ => k
            | Exited cerr status => Exited cerr status
            end) by reflexivity.
  pose proof (doTest_passes_iff jitCode 2 1) as H2.
  pose proof (doTest_passes_iff jitCode 1 4) as H1.
  pose proof (doTest_passes_iff jitCode 0 (-1)) as H0.
  pose proof (doTest_passes_iff jitCode (-1) (-1)) as Hm.
  unfold sanityTest. rewrite !Hstep.
  split; [| split; [reflexivity |]].
  - destruct (doTest jitCode 2 1) as [b2 | c s] eqn:E2.
    2:{ split; [discriminate |]. intros (Ha & _).
        rewrite Ha in H2. destruct H2 as [_ H2].
        discriminate H2. lia. }
    destruct (doTest jitCode 1 4) as [b1 | c s] eqn:E1.
    2:{ split; [discriminate |]. intros (_ & Ha & _).
        rewrite Ha in H1. destruct H1 as [_ H1].
        discriminate H1. lia. }
    destruct (doTest jitCode 0 (-1)) as [b0 | c s] eqn:E0.
    2:{ split; [discriminate |]. intros (_ & _ & [x Ha] & _).
        rewrite Ha in H0. destruct H0 as [_ H0].
        discriminate H0. lia. }
    destruct (doTest jitCode (-1) (-1)) as [bm | c s] eqn:Em.
    2:{ split; [discriminate |]. intros (_ & _ & _ & [x Ha]).
        rewrite Ha in Hm. destruct Hm as [_ Hm].
        discriminate Hm. lia. }
    apply doTest_true in E2, E1, E0, Em. subst.
    split; [intros _ | reflexivity].
    destruct H2 as [H2 _], H1 as [H1 _], H0 as [H0 _], Hm as [Hm _].
    specialize (H2 eq_refl). specialize (H1 eq_refl).
    specialize (H0 eq_refl). specialize (Hm eq_refl).
    destruct (invoke jitCode callback 2); [| lia].
    destruct (invoke jitCode callback 1); [| lia].
    destruct (invoke jitCode callback 0); [lia |].
    destruct (invoke jitCode callback (-1)); [lia |].
    repeat split; try (f_equal; lia); eauto.
  - pose proof (sanityTest_ends jitCode) as Hends.
    unfold sanityTest in Hends. rewrite !Hstep in Hends. exact Hends.
Qed.

(** ** The generator never stops *)

Lemma lxor_shr_nonzero x k :
  0 < x -> 0 < k -> Z.lxor x (U64.shr x k) <> 0.
Proof.
  intros Hx Hk H. apply Z.lxor_eq in H. unfold U64.shr in H.
  rewrite Z.shiftr_div_pow2 in H by lia.
  assert (1 < 2 ^ k) by (apply Z.pow_gt_1; lia).
  pose proof (Z.div_lt x (2 ^ k) Hx ltac:(lia)). lia.
Qed.

(** A 64-bit value that equals itself shifted to the left has no bit
    set. *)
Lemma shl_fixpoint_bits x k :
  0 < k -> x = U64.shl x k -> forall n, 0 <= n -> Z.testbit x n = false.
Proof.
  intros Hk Hx n Hn. pattern n.
  apply (well_founded_induction (Z.lt_wf 0)). clear n Hn.
  intros n IH.
  destruct (Z_lt_le_dec n 0) as [Hneg | Hn]; [apply Z.testbit_neg_r, Hneg |].
  rewrite Hx. unfold U64.shl, Int.to_uint64, Int.modulus64.
  destruct (Z_lt_le_dec n 64) as [Hlow | Hhigh].
  - rewrite Z.mod_pow2_bits_low by lia.
    rewrite Z.shiftl_spec by lia.
    destruct (Z_lt_le_dec (n - k) 0) as [Hsmall | Hge].
    + apply Z.testbit_neg_r, Hsmall.
    + apply IH. lia.
  - apply Z.mod_pow2_bits_high. lia.
Qed.

Lemma lxor_shl_nonzero x k :
  x <> 0 -> 0 < k -> Z.lxor x (U64.shl x k) <> 0.
Proof.
  intros Hx Hk H. apply Z.lxor_eq in H. apply Hx.
  apply Z.bits_inj'. intros n Hn. rewrite Z.bits_0.
  apply (shl_fixpoint_bits x k Hk H n Hn).
Qed.

(** The product with the odd multiplier is 0 in 64 bits for 0 only. *)
Lemma mul_multiplier_nonzero x :
  Int.is_uint64 x -> x <> 0 -> U64.mul x multiplier <> 0.
Proof.
  unfold Int.is_uint64, U64.mul, Int.to_uint64. intros [Hlo Hhi] Hx H.
  apply Z.mod_divide in H; [| unfold Int.modulus64; lia].
  rewrite Z.mul_comm in H.
  apply Z.gauss in H.
  - destruct H as [q Hq]. unfold Int.modulus64 in *.
    assert (q = 0) by nia. subst q. lia.
  - vm_compute. reflexivity.
Qed.

Lemma Random_new_live seed : live (Random_new seed).
Proof.
  split; [apply Random_new_range |].
  unfold Random_new. cbn [state]. rewrite Z.lor_eq_0_iff. lia.
Qed.

Lemma Random_next_live random :
  live random ->
  fst (Random_next random) <> 0 /\ live (snd (Random_next random)).
Proof.
  intros [Hrange Hnz].
  pose proof (Random_next_range random Hrange) as [_ Hrange'].
  assert (Hnz' : state (snd (Random_next random)) <> 0).
  { unfold Random_next. cbn [snd state].
    set (x1 := Z.lxor (state random) (U64.shr (state random) 12)).
    set (x2 := Z.lxor x1 (U64.shl x1 25)).
    assert (H1 : x1 <> 0)
      by (apply lxor_shr_nonzero; unfold Int.is_uint64 in Hrange; lia).
    assert (R1 : Int.is_uint64 x1)
      by (apply lxor_uint64; [| apply shr_uint64; [lia |]]; assumption).
    assert (H2 : x2 <> 0) by (apply lxor_shl_nonzero; [exact H1 | lia]).
    assert (R2 : Int.is_uint64 x2)
      by (apply lxor_uint64; [exact R1 | apply to_uint64_range]).
    apply lxor_shr_nonzero; unfold Int.is_uint64 in R2; lia. }
  split; [| split; assumption].
  unfold Random_next in *. cbn [fst snd state] in *.
  apply mul_multiplier_nonzero; assumption.
Qed.

Lemma skip_live n : forall random, live random -> live (skip n random).
Proof.
  induction n as [| n IH]; intros random H; cbn [skip]; [exact H |].
  apply IH, Random_next_live, H.
Qed.

Lemma draws_nonzero n : forall random,
  live random -> Forall (fun r => r <> 0) (draws n random).
Proof.
  induction n as [| n IH]; intros random H; cbn [draws]; [constructor |].
  pose proof (Random_next_live random H) as [Hr Hs].
  destruct (Random_next random) as [r random']. cbn [fst snd] in *.
  constructor; [exact Hr | apply IH, Hs].
Qed.

(** Whatever the seed and however many values have been drawn, the state
    of the generator is a 64-bit value other than 0, the one state from
    which xorshift would not move; and no value drawn is 0. *)
Theorem Random_never_zero seed n :
  Int.is_uint64 (state (skip n (Random_new seed))) /\
  state (skip n (Random_new seed)) <> 0 /\
  Forall (fun r => r <> 0) (draws n (Random_new seed)) /\
  (forall random, state random = 0 -> Random_next random = (0, random)).
Proof.
  pose proof (skip_live n _ (Random_new_live seed)) as [Hrange Hnz].
  split; [exact Hrange |]. split; [exact Hnz |]. split.
  - apply draws_nonzero, Random_new_live.
  - intros [x] Hx. cbn in Hx. subst x. reflexivity.
Qed.

Lemma Random_never_zero_witness :
  Random_next {| state := 0 |} = (0, {| state := 0 |}).
Proof.
  apply (Random_never_zero 0 0). reflexivity.
Defined.

(** ** The seeds *)

Lemma lor_double_1 a : Z.lor (2 * a) 1 = 2 * a + 1.
Proof.
  assert (H : Z.land (2 * a) 1 = 0).
  { rewrite land_1_odd, Z.odd_mul. reflexivity. }
  rewrite <- (Z.lxor_lor _ _ H). symmetry. apply Z.add_nocarry_lxor, H.
Qed.

(** A seed below 2^63 gives the state 2 seed + 1, so that different
    seeds below 2^63, and so the indices of different threads, give
    different generators; the top bit of a 64-bit seed is lost. *)
Theorem Random_new_seeds seed :
  (0 <= seed < 2 ^ 63 -> state (Random_new seed) = 2 * seed + 1) /\
  (forall seed',
     0 <= seed < 2 ^ 63 -> 0 <= seed' < 2 ^ 63 ->
     Random_new seed = Random_new seed' -> seed = seed') /\
  Random_new (seed + 2 ^ 63) = Random_new seed.
Proof.
  assert (Hstate : forall s, 0 <= s < 2 ^ 63 ->
                     state (Random_new s) = 2 * s + 1).
  { intros s Hs. unfold Random_new, U64.shl. cbn [state].
    rewrite Z.shiftl_mul_pow2 by lia. change (2 ^ 1) with 2.
    rewrite to_uint64_id, (Z.mul_comm s 2); [apply lor_double_1 |].
    unfold Int.is_uint64, Int.modulus64.
    change (2 ^ 64) with (2 * 2 ^ 63). lia. }
  split; [apply Hstate |]. split.
  - intros seed' Hs Hs' Heq.
    apply (f_equal state) in Heq.
    rewrite (Hstate _ Hs), (Hstate _ Hs') in Heq. lia.
  - unfold Random_new, U64.shl, Int.to_uint64, Int.modulus64. f_equal. f_equal.
    rewrite !Z.shiftl_mul_pow2 by lia. change (2 ^ 1) with 2.
    replace ((seed + 2 ^ 63) * 2) with (seed * 2 + 1 * 2 ^ 64)
      by (change (2 ^ 64) with (2 ^ 63 * 2); ring).
    apply Z_mod_plus_full.
Qed.

Lemma Random_new_seeds_witness :
  state (Random_new 3) = 7 /\ Random_new (3 + 2 ^ 63) = Random_new 3.
Proof.
  destruct (Random_new_seeds 3) as (Hstate & _ & Htop).
  split; [apply Hstate; lia | exact Htop].
Defined.

(** ** The inputs and the expected values *)

(** An error rate of 0 forces no failure, an error rate of 1000 or more
    forces all of them, and whatever the rate the input is -1 or from 1 to
    65536, and so never 0, the other argument for which the callback
    throws. *)
Theorem arg_edges r errorRate :
  (errorRate <= 0 -> 1 <= arg r errorRate <= 65536) /\
  (1000 <= errorRate -> arg r errorRate = -1) /\
  (arg r errorRate = -1 \/ 1 <= arg r errorRate <= 65536) /\
  arg r errorRate <> 0 /\
  (callback (arg r errorRate) = Throws (-1) <-> r mod 1000 < errorRate).
Proof.
  pose proof (Z.mod_pos_bound r 1000 eq_refl) as Hmod.
  pose proof (land_FFFF_range r) as Hland.
  split; [| split; [| split; [| split]]].
  - intros H. rewrite arg_drawn by lia. lia.
  - intros H. apply arg_forced. lia.
  - apply arg_cases.
  - destruct (arg_cases r errorRate); lia.
  - destruct (Z_lt_le_dec (r mod 1000) errorRate) as [Hlt | Hge].
    + rewrite (arg_forced _ _ Hlt). split; [intros _; exact Hlt | reflexivity].
    + rewrite (arg_drawn _ _ Hge). split; [| lia].
      rewrite callback_returns by lia. discriminate.
Qed.

Lemma arg_edges_witness :
  1 <= arg 5180492295206395165 0 <= 65536 /\ arg 5180492295206395165 1000 = -1.
Proof.
  destruct (arg_edges 5180492295206395165 0) as (Hnone & _).
  destruct (arg_edges 5180492295206395165 1000) as (_ & Hall & _).
  split; [apply Hnone | apply Hall]; lia.
Defined.

(** On the inputs that a run makes the expected value is computed without
    overflow: it is -1 for the input -1, and otherwise 3a + 1 or a / 2,
    from 0 to 196606.  So it is negative exactly when the callback
    throws, and the compiled [foo] passes the check. *)
Theorem expected_of_arg r errorRate :
  let a := arg r errorRate in
  (a = -1 -> expected a = -1) /\
  (1 <= a -> expected a = (if Z.odd a then 3 * a + 1 else a / 2) /\
             0 <= expected a <= 196606) /\
  (expected a < 0 <-> a = -1) /\
  (expected a < 0 <-> exists x, callback a = Throws x) /\
  doTest JITContainer_new a (expected a) = Done true.
Proof.
  intros a. pose proof (arg_cases r errorRate) as Ha. fold a in Ha.
  assert (Hexact : 1 <= a -> expected a = (if Z.odd a then 3 * a + 1 else a / 2)
                             /\ 0 <= expected a <= 196606).
  { intros H1. assert (Hr : 1 <= a <= 65536) by lia.
    assert (Hint : Int.is_int a)
      by (unfold Int.is_int, Int.INT_MIN, Int.INT_MAX; lia).
    destruct (Z.odd a) eqn:Hodd.
    - rewrite expected_odd by (unfold Int.INT_MAX; lia || exact Hodd).
      split; [reflexivity |].
      assert (a <> 65536) by (intros ->; discriminate Hodd). lia.
    - assert (Hev : Z.even a = true) by (rewrite <- Z.negb_odd, Hodd; reflexivity).
      rewrite (expected_even a Hint H1 Hev). split; [reflexivity |].
      assert (0 <= a / 2) by (apply Z.div_pos; lia).
      assert (a / 2 <= a) by (apply Z.div_le_upper_bound; lia).
      lia. }
  split; [intros ->; reflexivity |].
  split; [exact Hexact |].
  split; [| split].
  - split.
    + intros Hneg. destruct Ha as [Hm | Hr]; [exact Hm |].
      destruct (Hexact ltac:(lia)) as [_ Hb]. lia.
    + intros ->. reflexivity.
  - split.
    + intros Hneg. destruct Ha as [-> | Hr]; [eexists; reflexivity |].
      destruct (Hexact ltac:(lia)) as [_ Hb]. lia.
    + intros [x Hx]. destruct Ha as [-> | Hr]; [reflexivity |].
      rewrite callback_returns in Hx by lia. discriminate.
  - apply doTest_new_passes, Ha.
Qed.

Lemma expected_of_arg_witness :
  expected (arg 123456 10) = 173764 /\ expected (arg 123456 500) = -1.
Proof.
  destruct (expected_of_arg 123456 10) as (_ & Hexact & _).
  destruct (expected_of_arg 123456 500) as (Hforced & _).
  split.
  - apply Hexact. vm_compute. discriminate.
  - apply Hforced. reflexivity.
Defined.

(** ** What a run feeds to the containers *)

Lemma skip_last n : forall random,
  skip (S n) random = snd (Random_next (skip n random)).
Proof.
  induction n as [| n IH]; intros random; [reflexivity |].
  change (skip (S (S n)) random) with (skip (S n) (snd (Random_next random))).
  rewrite IH. reflexivity.
Qed.

Lemma skip_add a b random : skip (a + b) random = skip b (skip a random).
Proof.
  revert random. induction a as [| a IH]; intros random; [reflexivity |].
  cbn [Nat.add skip]. apply IH.
Qed.

Lemma draws_last n : forall random,
  draws (S n) random
    = (draws n random ++ [fst (Random_next (skip n random))])%list.
Proof.
  induction n as [| n IH]; intros random.
  - cbn. destruct (Random_next random). reflexivity.
  - change (draws (S (S n)) random)
      with (let (r, random') := Random_next random in
            r :: draws (S n) random').
    cbn [draws skip].
    destruct (Random_next random) as [r random'] eqn:E. cbn [snd].
    rewrite <- app_comm_cons. f_equal. apply IH.
Qed.

Lemma invocation_draw errorRate jitCode st st' :
  invocation errorRate jitCode st = Done st' ->
  random st' = snd (Random_next (random st)) /\
  events st'
    = Invoke (arg (fst (Random_next (random st))) errorRate) :: events st.
Proof.
  unfold invocation. destruct (Random_next (random st)) as [r random'].
  destruct (doTest jitCode _ _) as [b | c x]; cbn [bind]; [| discriminate].
  intros H. injection H as <-. split; reflexivity.
Qed.

Lemma invocations_draws errorRate jitCode n i st st' :
  for_loop i n (fun _ => invocation errorRate jitCode) st = Done st' ->
  random st' = skip n (random st) /\
  events st'
    = (rev (map Invoke (map (fun r => arg r errorRate) (draws n (random st))))
       ++ events st)%list.
Proof.
  intros Hrun.
  apply (for_loop_invariant _ n
           (fun k s =>
              random s = skip k (random st) /\
              events s
                = (rev (map Invoke
                          (map (fun r => arg r errorRate) (draws k (random st))))
                   ++ events st)%list)) in Hrun; [exact Hrun | | ].
  - intros k j s s' _ [Hrandom Hev] Hbody.
    apply invocation_draw in Hbody. destruct Hbody as [Hrandom' Hev'].
    split.
    + rewrite Hrandom', Hrandom. symmetry. apply skip_last.
    + rewrite Hev', Hev, Hrandom, draws_last, !map_app, rev_app_distr.
      reflexivity.
  - split; reflexivity.
Qed.

Lemma pass_draws newJIT errorRate index st st' :
  pass newJIT errorRate index st = Done st' ->
  random st' = skip (Z.to_nat repeat) (random st) /\
  events st'
    = (rev (unit_events
              (map (fun r => arg r errorRate)
                   (draws (Z.to_nat repeat) (random st))))
       ++ events st)%list.
Proof.
  unfold pass.
  destruct (for_loop 0 (Z.to_nat repeat) _ _) as [s1 | c x] eqn:Hloop;
    cbn [bind]; [| discriminate].
  intros H. injection H as <-. cbn [random events].
  apply invocations_draws in Hloop. cbn [random events] in Hloop.
  destruct Hloop as [Hrandom Hev]. split; [exact Hrandom |].
  rewrite Hev.
  generalize (map (fun r => arg r errorRate)
                (draws (Z.to_nat repeat) (random st))).
  intros l. unfold unit_events. cbn [rev].
  rewrite rev_app_distr. cbn [rev app]. rewrite <- app_assoc. reflexivity.
Qed.

Lemma Forall_run_events (P : event -> Prop) inputs :
  P Construct -> P Destruct ->
  Forall (Forall (fun a => P (Invoke a))) inputs ->
  Forall P (run_events inputs).
Proof.
  intros Hc Hd Hall. unfold run_events.
  induction Hall as [| l ls Hl Hls IH]; cbn [map List.concat]; [constructor |].
  apply Forall_app. split; [| exact IH].
  unfold unit_events. constructor; [exact Hc |].
  apply Forall_app. split; [| constructor; [exact Hd | constructor]].
  apply Forall_map. exact Hl.
Qed.

(** The calls of a run that comes to its end do not depend on the
    containers or on the clock: they are made from the first 100000 draws
    of the generator seeded with [seed], 10000 for each container, in the
    order of the draws; and every input is -1 or from 1 to 65536. *)
Theorem run_draws newJIT elapsed errorRate seed rep :
  doTest_run newJIT elapsed errorRate seed = Done rep ->
  rev (events (final rep)) = run_events (run_inputs errorRate seed) /\
  random (final rep)
    = skip (Z.to_nat functionRepeat * Z.to_nat repeat) (Random_new seed) /\
  Forall (fun ev => match ev with
                    | Invoke a => a = -1 \/ 1 <= a <= 65536
                    | _ => True
                    end) (events (final rep)).
Proof.
  unfold doTest_run.
  destruct (for_loop 0 (Z.to_nat functionRepeat) _ _) as [s1 | c x] eqn:Hloop;
    cbn [bind]; [| discriminate].
  intros H. injection H as <-. cbn [final].
  set (inputs := fun p =>
         map (fun pass =>
                map (fun r => arg r errorRate)
                    (draws (Z.to_nat repeat)
                           (skip (pass * Z.to_nat repeat) (Random_new seed))))
             (seq 0 p)).
  apply (for_loop_invariant _ _
           (fun k s =>
              random s = skip (k * Z.to_nat repeat) (Random_new seed) /\
              events s = rev (run_events (inputs k)))) in Hloop.
  - destruct Hloop as [Hrandom Hev].
    assert (Hrev : rev (events s1) = run_events (run_inputs errorRate seed))
      by (rewrite Hev; apply rev_involutive).
    split; [exact Hrev |]. split; [exact Hrandom |].
    rewrite <- (rev_involutive (events s1)). apply Forall_rev.
    rewrite Hev, rev_involutive.
    apply Forall_run_events; try exact I.
    apply Forall_forall. intros l Hin.
    apply in_map_iff in Hin. destruct Hin as (p & <- & _).
    apply Forall_forall. intros a Ha.
    apply in_map_iff in Ha. destruct Ha as (r & <- & _).
    apply arg_cases.
  - intros k j s s' _ [Hrandom Hev] Hbody.
    apply pass_draws in Hbody. destruct Hbody as [Hrandom' Hev'].
    split.
    + rewrite Hrandom', Hrandom, <- skip_add, <- Nat.mul_succ_l. reflexivity.
    + rewrite Hev', Hev, Hrandom. unfold inputs, run_events.
      rewrite seq_S, !map_app, concat_app, rev_app_distr.
      cbn [map List.concat Nat.add]. rewrite app_nil_r. reflexivity.
  - split; reflexivity.
Qed.

Lemma run_draws_witness :
  exists rep,
    doTest_run sound_engine 0 0 0 = Done rep /\
    rev (events (final rep)) = run_events (run_inputs 0 0).
Proof.
  destruct (doTest_run_total 0 0 0) as [rep Hrun].
  exists rep. split; [exact Hrun |].
  apply (run_draws sound_engine 0 0 0 rep Hrun).
Defined.

(** ** A run that ends the process *)





(** ** The threads, whatever the schedule *)



Lemma map_seq_nth {A : Type} (f : A -> Z) (g : nat -> Z) (l : list A) :
  forall s k t,
    map f l = map g (seq s (length l)) -> nth_error l k = Some t ->
    f t = g (s + k)%nat.
Proof.
  induction l as [| a l IH]; intros s k t Hmap Hnth.
  - destruct k; discriminate.
  - cbn [length seq map] in Hmap. injection Hmap as Ha Hl.
    destruct k as [| k]; cbn [nth_error] in Hnth.
    + injection Hnth as <-. rewrite Nat.add_0_r. exact Ha.
    + rewrite Nat.add_succ_r. apply (IH (S s) k t Hl Hnth).
Qed.

Section Progress.

Variable newJIT : Z -> Z -> JITContainer.
Variable elapsed : Z -> Z.
Variables errorRate threadCount : Z.
Hypothesis threadCount_unsigned : Int.is_unsigned threadCount.

#[local] Abbreviation step := (step newJIT elapsed errorRate threadCount).
#[local] Abbreviation reachable :=
  (reachable newJIT elapsed errorRate threadCount).

(** A thread that is not done can make a step, or end the process. *)
Lemma thread_can_step main ts1 t ts2 m :
  ~ finished t -> exists c', step (Multi main (ts1 ++ t :: ts2) m) c'.
Proof.
  intros Hnot. destruct t as [i | i d | i d c | i d].
  - destruct (doTest_run (newJIT i) (elapsed i) errorRate i) as [rep | c x] eqn:E.
    + eexists. apply step_thread, step_run. exact E.
    + eexists. apply step_exit. exact E.
  - eexists. apply step_thread, step_load.
  - destruct (Z_le_gt_dec d c).
    + eexists. apply step_thread, step_leave. assumption.
    + eexists. apply step_thread, step_retry. assumption.
  - exfalso. apply Hnot. exact I.
Qed.

Lemma progress c : reachable c -> ~ terminal c -> exists c', step c c'.
Proof.
  intros Hreach Hnot.
  apply reachable_invariant in Hreach; [| exact threadCount_unsigned].
  destruct c as [run | main ts m | cerr status]; cbn in Hnot; try tauto.
  destruct Hreach as (_ & _ & _ & Hmain).
  destruct main as [index | k | r]; cbn in Hmain; try tauto.
  - destruct (Z.eq_dec index threadCount) as [-> | Hne].
    + eexists. apply step_spawned.
    + eexists. apply step_spawn. exact Hne.
  - destruct Hmain as [Hlen Hjoined].
    destruct (nth_error ts k) as [t |] eqn:Hnth.
    + destruct t as [i | i d | i d c | i d].
      4:{ eexists. eapply step_join. exact Hnth. }
      all: apply nth_error_split in Hnth;
        destruct Hnth as (ts1 & ts2 & -> & _);
        apply thread_can_step; cbn; tauto.
    + apply nth_error_None in Hnth.
      destruct (Nat.eq_dec k (length ts)) as [-> | Hne].
      * eexists. apply step_joined.
      * destruct (Hjoined (length ts) ltac:(lia)) as (t & Ht & _).
        assert (Hsome : nth_error ts (length ts) <> None)
          by (rewrite Ht; discriminate).
        apply nth_error_Some in Hsome. lia.
Qed.

Lemma quiescent c : reachable c -> terminal c -> forall c', ~ step c c'.
Proof.
  intros Hreach Hterm c' Hstep.
  apply reachable_invariant in Hreach; [| exact threadCount_unsigned].
  destruct Hstep as
    [ index ts m Hne | ts m | k ts m i d Hk | ts m
    | main ts1 t ts2 m t' m' Ht | main ts1 i ts2 m c x Hexit ];
    cbn in Hterm; try tauto.
  - destruct main as [index | k | r]; try tauto.
    destruct Hreach as (_ & _ & _ & _ & _ & Hfin).
    apply Forall_app in Hfin. destruct Hfin as [_ Hfin].
    inversion Hfin as [| t0 l0 Ht0 _]; subst.
    exact (finished_stuck _ _ _ _ _ _ _ Ht Ht0).
  - destruct main as [index | k | r]; try tauto.
    destruct Hreach as (_ & _ & _ & _ & _ & Hfin).
    apply Forall_app in Hfin. destruct Hfin as [_ Hfin].
    inversion Hfin as [| t0 l0 Ht0 _]; subst. exact Ht0.
Qed.

End Progress.

(** The test does not get stuck: as long as the caller has not returned
    and the process has not ended, the caller or a thread can make a step;
    and once the caller has returned, or the process has ended, nothing
    moves any more. *)
Theorem no_deadlock newJIT elapsed errorRate threadCount c :
  Int.is_unsigned threadCount ->
  reachable newJIT elapsed errorRate threadCount c ->
  (~ terminal c ->
   exists c', step newJIT elapsed errorRate threadCount c c') /\
  (terminal c ->
   forall c', ~ step newJIT elapsed errorRate threadCount c c').
Proof.
  intros Hu Hreach. split.
  - apply progress; assumption.
  - apply quiescent; assumption.
Qed.

Lemma no_deadlock_witness :
  (exists c', step (fun _ => sound_engine) (fun _ => 0) 0 2
                (Multi (Joining 0) [Spawned 0; Spawned 1] 0) c') /\
  (forall c', ~ step (fun _ => sound_engine) (fun i => 5 + i) 0 2
                  (Multi (Returned 6) [Finished 0 5; Finished 1 6] 6) c').
Proof.
  assert (Hu : Int.is_unsigned 2) by (unfold Int.is_unsigned, Int.modulus32; lia).
  split.
  - apply (no_deadlock (fun _ => sound_engine) (fun _ => 0) 0 2 _ Hu).
    + apply (reachable_spawned _ _ _ 2 Hu). lia.
    + cbn. tauto.
  - apply (no_deadlock (fun _ => sound_engine) (fun i => 5 + i) 0 2 _ Hu).
    + exact two_threads_return.
    + exact I.
Defined.

(** ** The value returned, whatever the schedule *)

Lemma max_upto_nonneg d j : 0 <= max_upto d j.
Proof. induction j as [| j IH]; cbn [max_upto]; lia. Qed.

Lemma max_upto_ge d j : forall i, (i < j)%nat -> d (Z.of_nat i) <= max_upto d j.
Proof.
  induction j as [| j IH]; intros i Hi; [lia |]. cbn [max_upto].
  destruct (Nat.eq_dec i j) as [-> | Hne]; [lia |].
  specialize (IH i ltac:(lia)). lia.
Qed.

Lemma max_upto_attained d j :
  max_upto d j = 0 \/ exists i, (i < j)%nat /\ max_upto d j = d (Z.of_nat i).
Proof.
  induction j as [| j IH]; [left; reflexivity |]. cbn [max_upto].
  destruct (Z.max_spec (max_upto d j) (d (Z.of_nat j))) as [[_ ->] | [_ ->]].
  - right. exists j. split; [lia | reflexivity].
  - destruct IH as [IH | (i & Hi & IH)]; [left; exact IH |].
    right. exists i. split; [lia | exact IH].
Qed.

(** However the threads are scheduled, the caller returns the same
    value: the largest of the durations that the runs seeded with 0, ...,
    [threadCount] - 1 return, each of them the elapsed milliseconds as an
    [unsigned]. *)
Theorem returned_maximum newJIT elapsed errorRate threadCount ts m r :
  Int.is_unsigned threadCount ->
  reachable newJIT elapsed errorRate threadCount (Multi (Returned r) ts m) ->
  r = max_upto (fun i => Int.to_unsigned (elapsed i)) (Z.to_nat threadCount) /\
  m = r.
Proof.
  intros Hu Hreach.
  pose proof (reachable_max_attained _ _ _ _ _ Hreach) as Hatt.
  apply reachable_invariant in Hreach; [| exact Hu].
  destruct Hreach as (Hn & Hidx & Hok & Hlen & -> & Hfin).
  split; [| reflexivity]. cbn in Hatt.
  set (d := fun i => Int.to_unsigned (elapsed i)).
  assert (HN : Z.to_nat threadCount = length ts) by lia.
  rewrite HN.
  (* what a thread of the vector is *)
  assert (Hthread : forall k t, nth_error ts k = Some t ->
            t = Finished (Z.of_nat k) (d (Z.of_nat k)) /\ d (Z.of_nat k) <= m).
  { intros k t Hnth.
    pose proof (map_seq_nth _ _ _ 0%nat k t Hidx Hnth) as Hi. cbn in Hi.
    assert (Hin : In t ts) by (eapply nth_error_In; exact Hnth).
    rewrite Forall_forall in Hok, Hfin.
    specialize (Hok t Hin). specialize (Hfin t Hin).
    destruct t as [i | i x | i x c | i x]; cbn in Hfin; try tauto.
    cbn in Hi, Hok. subst i. destruct Hok as [(rep & Hrun & ->) Hle].
    apply doTest_run_done in Hrun. destruct Hrun as [Hd _].
    rewrite Hd in *. split; [reflexivity | exact Hle]. }
  assert (Hm : 0 <= m).
  { destruct Hatt as [-> | [i Hin]]; [lia |].
    apply In_nth_error in Hin. destruct Hin as [k Hk].
    destruct (Hthread k _ Hk) as [Heq _]. injection Heq as _ ->.
    apply to_unsigned_range. }
  apply Z.le_antisymm.
  - destruct Hatt as [-> | [i Hin]]; [apply max_upto_nonneg |].
    apply In_nth_error in Hin. destruct Hin as [k Hk].
    destruct (Hthread k _ Hk) as [Heq _]. injection Heq as _ ->.
    apply (max_upto_ge d). apply nth_error_Some. rewrite Hk. discriminate.
  - destruct (max_upto_attained d (length ts)) as [-> | (k & Hk & ->)];
      [exact Hm |].
    destruct (nth_error ts k) as [t |] eqn:Hnth.
    + apply (Hthread k t Hnth).
    + apply nth_error_None in Hnth. lia.
Qed.

Lemma returned_maximum_witness :
  6 = max_upto (fun i => Int.to_unsigned (5 + i)) (Z.to_nat 2) /\ 6 = 6.
Proof.
  assert (Hu : Int.is_unsigned 2) by (unfold Int.is_unsigned, Int.modulus32; lia).
  apply (returned_maximum (fun _ => sound_engine) (fun i => 5 + i) 0 2
           [Finished 0 5; Finished 1 6] 6 6 Hu two_threads_return).
Defined.

(** ** The default thread counts of [main] *)

Lemma pow2_length_pred (l : list Z) :
  l <> [] -> 2 ^ Z.of_nat (length l) = 2 * 2 ^ (Z.of_nat (length l) - 1).
Proof.
  intros Hne. destruct l as [| a l]; [congruence |].
  cbn [length]. rewrite Nat2Z.inj_succ.
  replace (Z.succ (Z.of_nat (length l)) - 1) with (Z.of_nat (length l)) by lia.
  apply Z.pow_succ_r. lia.
Qed.

(** While the loop doubles, the last element is 2 to the number of
    elements before it; the list returned has one element more than the
    number of doublings that reach [maxCount]. *)
Lemma buildThreadCounts_loop_length maxCount :
  1 <= maxCount <= 2 ^ 31 ->
  forall f l,
    l <> [] -> back l = 2 ^ (Z.of_nat (length l) - 1) ->
    back l <= maxCount -> maxCount <= back l * 2 ^ Z.of_nat f ->
    exists l',
      buildThreadCounts_loop (S f) maxCount l = Some l' /\
      Z.of_nat (length l') = Z.log2_up maxCount + 1.
Proof.
  intros Hmax.
  assert (Hstop : forall l,
            l <> [] -> back l = 2 ^ (Z.of_nat (length l) - 1) ->
            back l = maxCount ->
            Z.of_nat (length l) = Z.log2_up maxCount + 1).
  { intros l Hne Hpow Hback. rewrite <- Hback, Hpow.
    rewrite Z.log2_up_pow2; [lia |].
    destruct l; [congruence | cbn [length]; lia]. }
  assert (Hlenpos : forall l : list Z, l <> [] -> 1 <= Z.of_nat (length l))
    by (intros [| a l] H; [congruence | cbn [length]; lia]).
  induction f as [| f IH]; intros l Hne Hpow Hle Hfuel.
  - cbn [buildThreadCounts_loop]. cbn in Hfuel.
    destruct (Z.ltb_spec (back l) maxCount); [lia |].
    exists l. split; [reflexivity | apply Hstop; try assumption; lia].
  - cbn [buildThreadCounts_loop].
    pose proof (Hlenpos l Hne) as Hl1.
    assert (Hbackpos : 0 < back l)
      by (rewrite Hpow; apply Z.pow_pos_nonneg; lia).
    destruct (Z.ltb_spec (back l) maxCount) as [Hlt | Hge].
    + rewrite to_unsigned_id
        by (unfold Int.is_unsigned, Int.modulus32;
            change (2 ^ 31) with 2147483648 in Hmax; lia).
      pose proof (pow2_length_pred l Hne) as Hlen.
      destruct (Z_le_gt_dec (back l * 2) maxCount) as [Hfit | Hcap].
      * rewrite Z.min_l by exact Hfit.
        apply IH.
        -- unfold push_back. destruct l; discriminate.
        -- rewrite back_push. unfold push_back.
           rewrite length_app. cbn [length].
           replace (Z.of_nat (length l + 1) - 1) with (Z.of_nat (length l)) by lia.
           lia.
        -- rewrite back_push. exact Hfit.
        -- rewrite back_push.
           rewrite Nat2Z.inj_succ, Z.pow_succ_r in Hfuel by lia. lia.
      * rewrite Z.min_r by lia.
        exists (push_back l maxCount). split.
        -- cbn [buildThreadCounts_loop]. rewrite back_push, Z.ltb_irrefl.
           reflexivity.
        -- unfold push_back. rewrite length_app. cbn [length].
           rewrite (Z.log2_up_unique maxCount (Z.of_nat (length l))); lia.
    + exists l. split; [reflexivity | apply Hstop; try assumption; lia].
Qed.

(** Whatever number of hardware threads an [unsigned] can hold, [main]
    gets its default list within 33 tests of the loop's condition: its
    counts are from 1 to half that number (and 1 when the half is 0), and
    there are one more of them than the doublings that reach the half, at
    most 32; up to 3 hardware threads, 0 for an unknown number among them,
    give the list of 1 alone. *)
Theorem default_thread_counts fuel hardware_concurrency :
  (33 <= fuel)%nat -> Int.is_unsigned hardware_concurrency ->
  exists l,
    buildThreadCounts fuel (hardware_concurrency / 2) = Some l /\
    Forall (fun c => 1 <= c <= Z.max 1 (hardware_concurrency / 2)) l /\
    Z.of_nat (length l) = Z.log2_up (Z.max 1 (hardware_concurrency / 2)) + 1 /\
    (length l <= 32)%nat /\
    (hardware_concurrency <= 3 -> l = [1]).
Proof.
  intros Hfuel [Hlo Hhi]. unfold Int.modulus32 in Hhi.
  set (maxCount := hardware_concurrency / 2).
  assert (Hhalf : 0 <= maxCount < 2 ^ 31).
  { split; [apply Z.div_pos; lia |].
    apply Z.div_lt_upper_bound; [lia |].
    change (2 * 2 ^ 31) with (2 ^ 32). exact Hhi. }
  assert (Hsmall : hardware_concurrency <= 3 -> maxCount <= 1).
  { intros H. unfold maxCount.
    assert (hardware_concurrency / 2 < 2)
      by (apply Z.div_lt_upper_bound; lia). lia. }
  destruct (Z_le_gt_dec maxCount 1) as [Hone | Hmany].
  - exists [1].
    assert (Hrun : buildThreadCounts fuel maxCount = Some [1]).
    { destruct fuel as [| fuel]; [lia |].
      cbn [buildThreadCounts buildThreadCounts_loop].
      change (back [1]) with 1.
      destruct (Z.ltb_spec 1 maxCount); [lia | reflexivity]. }
    split; [exact Hrun |]. split; [constructor; [lia | constructor] |].
    split; [| split; [cbn; lia | reflexivity]].
    rewrite Z.max_l by lia. reflexivity.
  - assert (Hmax : 1 <= maxCount <= 2 ^ 31) by lia.
    destruct (buildThreadCounts_loop_spec maxCount Hmax 32 [1])
      as (l & Hrun & _ & _ & _ & Hall & _);
      try (cbn; tauto); try discriminate.
    { constructor; [lia | constructor]. }
    { change (back [1]) with 1. change (2 ^ Z.of_nat 32) with 4294967296.
      change (2 ^ 31) with 2147483648 in Hmax. lia. }
    destruct (buildThreadCounts_loop_length maxCount Hmax 32 [1])
      as (l' & Hrun' & Hlen); try discriminate; try reflexivity.
    { change (back [1]) with 1. lia. }
    { change (back [1]) with 1. change (2 ^ Z.of_nat 32) with 4294967296.
      change (2 ^ 31) with 2147483648 in Hmax. lia. }
    rewrite Hrun in Hrun'. injection Hrun' as <-.
    exists l. rewrite Z.max_r by lia.
    split; [apply (buildThreadCounts_loop_more maxCount 33); assumption |].
    split; [exact Hall |]. split; [exact Hlen |]. split; [| lia].
    assert (Z.log2_up maxCount <= 31)
      by (apply Z.log2_up_le_pow2; lia).
    lia.
Qed.

Lemma default_thread_counts_witness :
  exists l, buildThreadCounts 33 (16 / 2) = Some l /\ Z.of_nat (length l) = 4.
Proof.
  assert (Hu : Int.is_unsigned 16) by (unfold Int.is_unsigned, Int.modulus32; lia).
  destruct (default_thread_counts 33 16 (le_n 33) Hu)
    as (l & Hrun & _ & Hlen & _).
  exists l. split; [exact Hrun | exact Hlen].
Defined.

(** ** Printing the thread counts and reading them back *)

Lemma string_app_assoc (a b c : string) :
  ((a ++ b) ++ c)%string = (a ++ (b ++ c))%string.
Proof. induction a as [| x a IH]; cbn; [| rewrite IH]; reflexivity. Qed.

Lemma string_app_nil_r (a : string) : (a ++ "")%string = a.
Proof. induction a as [| x a IH]; cbn; [| rewrite IH]; reflexivity. Qed.

Lemma tokens_nonempty desc : tokens desc <> [].
Proof.
  destruct desc as [| c desc]; cbn [tokens]; [discriminate |].
  destruct (Ascii.eqb c " "); [discriminate |].
  destruct (tokens desc); discriminate.
Qed.

(** A space ends the pieces before it and starts those after it. *)
Lemma tokens_app_space s1 s2 :
  tokens (s1 ++ String " " s2) = (tokens s1 ++ tokens s2)%list.
Proof.
  induction s1 as [| c s1 IH]; [reflexivity |].
  cbn [append tokens]. rewrite IH.
  destruct (Ascii.eqb c " "); [reflexivity |].
  pose proof (tokens_nonempty s1) as Hne.
  destruct (tokens s1) as [| t ts]; [congruence | reflexivity].
Qed.

Lemma tokens_no_space s : find_space s = None -> tokens s = [s].
Proof.
  intros H. pose proof (find_space_tokens s) as Hs.
  rewrite H in Hs. exact Hs.
Qed.

(** The digits that a decimal number is printed with. *)
Lemma digits_of_uint_acc d : forall p,
  digits (Zpos p) (DecimalString.NilEmpty.string_of_uint d)
    = Zpos (Pos.of_uint_acc d p).
Proof.
  induction d as [| d IH | d IH | d IH | d IH | d IH | d IH | d IH | d IH
                  | d IH | d IH]; intros p;
    cbn [DecimalString.NilEmpty.string_of_uint Pos.of_uint_acc digits];
    [reflexivity | ..];
    match goal with
    | |- context [digit ?c] =>
        let v := eval vm_compute in (digit c) in change (digit c) with v
    end; cbv iota; rewrite <- IH; f_equal; lia.
Qed.

Lemma digits_of_uint d :
  digits 0 (DecimalString.NilEmpty.string_of_uint d) = Z.of_N (Pos.of_uint d).
Proof.
  induction d as [| d IH | d IH | d IH | d IH | d IH | d IH | d IH | d IH
                  | d IH | d IH];
    cbn [DecimalString.NilEmpty.string_of_uint Pos.of_uint digits];
    [reflexivity | ..];
    match goal with
    | |- context [digit ?c] =>
        let v := eval vm_compute in (digit c) in change (digit c) with v
    end; cbv iota;
    [exact IH | ..]; cbn [Z.of_N]; rewrite <- digits_of_uint_acc; reflexivity.
Qed.

Lemma uint_starts_with_digit d :
  d <> Decimal.Nil ->
  starts_with_digit (DecimalString.NilEmpty.string_of_uint d) = true.
Proof. destruct d; [congruence | ..]; reflexivity. Qed.

Lemma uint_no_space d :
  find_space (DecimalString.NilEmpty.string_of_uint d) = None.
Proof.
  induction d; cbn [DecimalString.NilEmpty.string_of_uint];
    [reflexivity | ..]; rewrite find_space_cons, IHd; reflexivity.
Qed.

(** What is printed for a count that is not negative: digits only, and
    those that spell it. *)
Lemma show_int_digits c :
  0 <= c ->
  starts_with_digit (show_int c) = true /\
  digits 0 (show_int c) = c /\
  find_space (show_int c) = None.
Proof.
  intros Hc. destruct c as [| p | p]; [repeat split | | lia].
  unfold show_int. cbn [Z.to_int DecimalString.NilZero.string_of_int].
  pose proof (DecimalPos.Unsigned.to_uint_nonnil p) as Hnil.
  assert (Hshow : DecimalString.NilZero.string_of_uint (Pos.to_uint p)
                  = DecimalString.NilEmpty.string_of_uint (Pos.to_uint p))
    by (destruct (Pos.to_uint p); [congruence | ..]; reflexivity).
  rewrite Hshow. split; [| split].
  - apply uint_starts_with_digit, Hnil.
  - rewrite digits_of_uint, DecimalPos.Unsigned.of_to. reflexivity.
  - apply uint_no_space.
Qed.

Lemma stoi_show_int c : 0 <= c <= Int.INT_MAX -> stoi (show_int c) = inr c.
Proof.
  intros Hc. destruct (show_int_digits c) as (Hstart & Hdigits & _); [lia |].
  destruct (stoi_numeral (show_int c) Hstart) as [Hstoi _];
    [rewrite Hdigits; lia |].
  rewrite Hstoi, Hdigits. reflexivity.
Qed.

Lemma show_counts_acc l : forall acc,
  fold_left (fun out c => (out ++ " " ++ show_int c)%string) l acc
    = (acc ++ show_counts l)%string.
Proof.
  induction l as [| c l IH]; intros acc.
  - cbn. rewrite string_app_nil_r. reflexivity.
  - change (show_counts (c :: l))
      with (fold_left (fun out c => (out ++ " " ++ show_int c)%string) l
              (String " " (show_int c))).
    cbn [fold_left].
    rewrite (IH (acc ++ " " ++ show_int c)%string),
            (IH (String " " (show_int c))).
    apply string_app_assoc.
Qed.

Lemma show_counts_cons c l :
  show_counts (c :: l) = String " " (show_int c ++ show_counts l).
Proof.
  unfold show_counts at 1. cbn [fold_left]. rewrite show_counts_acc.
  reflexivity.
Qed.

Lemma substr_from_1 c s : substr_from 1 (String c s) = s.
Proof.
  unfold substr_from. cbn [String.length Nat.sub substring].
  rewrite Nat.sub_0_r. apply substring_all.
Qed.

Lemma tokens_show_counts c l :
  Forall (fun c => 0 <= c) (c :: l) ->
  tokens (show_int c ++ show_counts l) = map show_int (c :: l).
Proof.
  revert c. induction l as [| c' l IH]; intros c Hall;
    inversion Hall as [| x xs Hc Hl]; subst.
  - cbn [show_counts fold_left map]. rewrite string_app_nil_r.
    apply tokens_no_space. apply show_int_digits, Hc.
  - rewrite show_counts_cons, tokens_app_space, (IH c' Hl).
    rewrite tokens_no_space by (apply show_int_digits, Hc). reflexivity.
Qed.

Lemma counts_show_int l :
  Forall (fun c => 1 <= c <= Int.INT_MAX) l -> counts (map show_int l) = l.
Proof.
  intros Hall. unfold counts.
  induction Hall as [| c l Hc Hl IH]; [reflexivity |].
  assert (Hcount : count_of (show_int c) = c).
  { unfold count_of. rewrite stoi_show_int by lia.
    apply to_unsigned_id.
    unfold Int.is_unsigned, Int.modulus32, Int.INT_MAX in *. lia. }
  cbn [map filter]. rewrite Hcount.
  destruct (Z.eqb_spec c 0); [lia |]. cbn [negb]. f_equal. exact IH.
Qed.

(** The thread counts that [runTests] prints in its first line, given
    back after [--threads] without the space before the first of them,
    are read as the same counts, when none of them is above 2147483647;
    what is printed for no count at all is refused. *)
Theorem counts_read_back l :
  (l <> [] -> Forall (fun c => 1 <= c <= Int.INT_MAX) l ->
   interpretThreadCounts (substr_from 1 (show_counts l)) = Some (inr l)) /\
  interpretThreadCounts (substr_from 1 (show_counts []))
    = Some (inl invalid_argument).
Proof.
  split; [| reflexivity].
  intros Hne Hall. destruct l as [| c l]; [congruence |].
  rewrite show_counts_cons, substr_from_1, interpretThreadCounts_tokens.
  rewrite tokens_show_counts
    by (eapply Forall_impl; [| exact Hall]; cbn; intros; lia).
  rewrite add_all_parses.
  - rewrite (counts_show_int _ Hall). reflexivity.
  - apply Forall_forall. intros t Hin.
    apply in_map_iff in Hin. destruct Hin as (x & <- & Hx).
    rewrite Forall_forall in Hall. specialize (Hall x Hx).
    exists x. apply stoi_show_int. lia.
Qed.

Lemma counts_read_back_witness :
  interpretThreadCounts (substr_from 1 (show_counts [1; 2; 4; 8; 12]))
    = Some (inr [1; 2; 4; 8; 12]).
Proof.
  apply (counts_read_back [1; 2; 4; 8; 12]); [discriminate |].
  repeat constructor; unfold Int.INT_MAX; lia.
Defined.

(** ** Descriptions that are refused *)

Lemma add_all_refuses ts : forall threadCounts t e0,
  In t ts -> stoi t = inl e0 -> exists e, add_all ts threadCounts = inl e.
Proof.
  induction ts as [| t1 ts IH]; intros threadCounts t e0 Hin Ht; [contradiction |].
  cbn [add_all]. destruct (add t1 threadCounts) as [e | threadCounts'] eqn:Hadd;
    [eauto |].
  destruct Hin as [-> | Hin].
  - unfold add in Hadd. rewrite Ht in Hadd. discriminate.
  - eapply IH; eassumption.
Qed.

(** A description with an empty piece is never read as thread counts: the
    empty description, one that starts or ends with a space, and one with
    two spaces in a row all end in an exception of [std::stoi], which
    nothing catches; for the first two it is [invalid_argument]. *)
Theorem empty_piece_refused s1 s2 :
  interpretThreadCounts "" = Some (inl invalid_argument) /\
  interpretThreadCounts (String " " s2) = Some (inl invalid_argument) /\
  (exists e, interpretThreadCounts (s1 ++ " ") = Some (inl e)) /\
  (exists e, interpretThreadCounts (s1 ++ "  " ++ s2) = Some (inl e)) /\
  (forall threadCounts rest,
     exists e,
       handle_arguments ("--threads" :: (s1 ++ "  " ++ s2) :: rest)%string
         threadCounts = Uncaught e).
Proof.
  assert (Hdouble : exists e, add_all (tokens (s1 ++ "  " ++ s2)) [] = inl e).
  { apply (add_all_refuses _ [] EmptyString invalid_argument); [| reflexivity].
    change (s1 ++ "  " ++ s2)%string with (s1 ++ String " " (String " " s2))%string.
    rewrite tokens_app_space. apply in_or_app. right. left. reflexivity. }
  split; [reflexivity |]. split; [| split; [| split]].
  - rewrite interpretThreadCounts_tokens. reflexivity.
  - rewrite interpretThreadCounts_tokens.
    assert (Hend : exists e, add_all (tokens (s1 ++ " ")) [] = inl e).
    { apply (add_all_refuses _ [] EmptyString invalid_argument); [| reflexivity].
      rewrite tokens_app_space. apply in_or_app. right. left. reflexivity. }
    destruct Hend as [e ->]. eauto.
  - rewrite interpretThreadCounts_tokens. destruct Hdouble as [e ->]. eauto.
  - intros threadCounts rest. cbn [handle_arguments].
    rewrite String.eqb_refl, interpretThreadCounts_tokens.
    destruct Hdouble as [e ->]. eauto.
Qed.

(** ** Negative counts *)

(** A piece that is a minus sign before digits is not refused as long as
    the digits spell at most 2^31: the count added is 2^32 less that
    number, at least 2^31; beyond 2^31 [std::stoi] throws
    [out_of_range]. *)
Theorem negative_count_wraps t threadCounts :
  starts_with_digit t = true ->
  (1 <= digits 0 t <= 2 ^ 31 ->
   add (String "-" t) threadCounts
     = inr (push_back threadCounts (2 ^ 32 - digits 0 t)) /\
   2 ^ 31 <= 2 ^ 32 - digits 0 t) /\
  (2 ^ 31 < digits 0 t ->
   add (String "-" t) threadCounts = inl out_of_range).
Proof.
  intros Hstart.
  assert (Hstoi : stoi (String "-" t)
                  = if (- digits 0 t <? Int.INT_MIN) || (Int.INT_MAX <? - digits 0 t)
                    then inl out_of_range else inr (- digits 0 t)).
  { unfold stoi. cbn [skip_spaces].
    change (isspace "-") with false. cbv iota. rewrite Hstart. reflexivity. }
  pose proof (digits_nonneg t 0 ltac:(lia)) as Hpos.
  unfold add. rewrite Hstoi. unfold Int.INT_MIN, Int.INT_MAX.
  change (2 ^ 31) with 2147483648. change (2 ^ 32) with 4294967296.
  split.
  - intros Hk.
    destruct (Z.ltb_spec (- digits 0 t) (-2147483648)); [lia |].
    destruct (Z.ltb_spec 2147483647 (- digits 0 t)); [lia |].
    cbn [orb].
    assert (Hwrap : Int.to_unsigned (- digits 0 t) = 4294967296 - digits 0 t).
    { unfold Int.to_unsigned, Int.modulus32. symmetry.
      apply Z.mod_unique with (q := -1); lia. }
    rewrite Hwrap.
    destruct (Z.eqb_spec (4294967296 - digits 0 t) 0); [lia |].
    split; [reflexivity | lia].
  - intros Hk.
    destruct (Z.ltb_spec (- digits 0 t) (-2147483648)); [| lia].
    reflexivity.
Qed.

Lemma negative_count_wraps_witness :
  add "-1" [4] = inr [4; 4294967295] /\ add "-2147483649" [4] = inl out_of_range.
Proof.
  destruct (negative_count_wraps "1" [4] eq_refl) as [Hwrap _].
  destruct (negative_count_wraps "2147483649" [4] eq_refl) as [_ Hrange].
  split.
  - apply Hwrap. vm_compute. split; discriminate.
  - apply Hrange. vm_compute. reflexivity.
Defined.

(** ** The sweep *)

Section SweepCalls.

Variable show_rate : Z -> string.
Variable orchestrate : nat -> Z -> Z -> proc Z.

#[local] Abbreviation all_returned := (all_returned orchestrate).
#[local] Abbreviation swept := (swept orchestrate).

Lemma all_returned_nil start : all_returned start [].
Proof. intros n fr tc H. destruct n; discriminate. Qed.

Lemma all_returned_app start l1 l2 :
  all_returned start l1 -> all_returned (start + length l1) l2 ->
  all_returned start (l1 ++ l2).
Proof.
  intros H1 H2 n fr tc Hnth.
  destruct (Nat.lt_ge_cases n (length l1)) as [Hlt | Hge].
  - rewrite nth_error_app1 in Hnth by exact Hlt. apply H1, Hnth.
  - rewrite nth_error_app2 in Hnth by exact Hge.
    specialize (H2 _ _ _ Hnth).
    replace (start + length l1 + (n - length l1))%nat with (start + n)%nat in H2
      by lia.
    exact H2.
Qed.

Lemma swept_app cells1 cells2 start calls1 cout1 calls2 e :
  swept cells1 start calls1 (Done cout1) ->
  swept cells2 (start + length cells1) calls2 e ->
  swept (cells1 ++ cells2) start (calls1 ++ calls2) e.
Proof.
  intros [-> H1] H2. destruct e as [cout | cerr status]; cbn in *.
  - destruct H2 as [-> H2]. split; [reflexivity |].
    apply all_returned_app; assumption.
  - destruct H2 as (before & fr & tc & after & -> & -> & Hbefore & Hexit).
    exists (cells1 ++ before)%list, fr, tc, after.
    rewrite <- !app_assoc. repeat split.
    + apply all_returned_app; assumption.
    + rewrite length_app, Nat.add_assoc. exact Hexit.
Qed.

Lemma swept_exit cells1 cells2 start calls1 cerr status :
  swept cells1 start calls1 (Exited cerr status) ->
  swept (cells1 ++ cells2) start calls1 (Exited cerr status).
Proof.
  intros (before & fr & tc & after & -> & -> & Hbefore & Hexit).
  exists before, fr, tc, (after ++ cells2)%list.
  rewrite <- app_assoc. repeat split; assumption.
Qed.

Lemma row_swept fr : forall threadCounts calls cout calls' e,
  row orchestrate fr threadCounts calls cout = (calls', e) ->
  exists made,
    calls' = (calls ++ made)%list /\
    swept (map (pair fr) threadCounts) (length calls) made e.
Proof.
  induction threadCounts as [| tc rest IH]; intros calls cout calls' e Hrow;
    cbn [row] in Hrow.
  - injection Hrow as <- <-. exists []. rewrite app_nil_r.
    split; [reflexivity |]. split; [reflexivity | apply all_returned_nil].
  - destruct (orchestrate (length calls) fr tc) as [r | cerr status] eqn:Hcall.
    + apply IH in Hrow. destruct Hrow as (made & -> & Hmade).
      exists ((fr, tc) :: made). rewrite <- app_assoc. split; [reflexivity |].
      rewrite length_app in Hmade. cbn [length] in Hmade.
      apply (swept_app [(fr, tc)] (map (pair fr) rest) (length calls)
               [(fr, tc)] EmptyString made e); [| exact Hmade].
      split; [reflexivity |].
      intros n fr' tc' Hnth. destruct n as [| n]; [| destruct n; discriminate].
      injection Hnth as <- <-. rewrite Nat.add_0_r. eauto.
    + injection Hrow as <- <-. exists [(fr, tc)]. split; [reflexivity |].
      exists [], fr, tc, (map (pair fr) rest). repeat split.
      * apply all_returned_nil.
      * cbn [length]. rewrite Nat.add_0_r. exact Hcall.
Qed.

Lemma rows_swept threadCounts : forall rates calls cout calls' e,
  rows show_rate orchestrate rates threadCounts calls cout = (calls', e) ->
  exists made,
    calls' = (calls ++ made)%list /\
    swept (list_prod rates threadCounts) (length calls) made e.
Proof.
  induction rates as [| fr rates IH]; intros calls cout calls' e Hrows;
    cbn [rows] in Hrows.
  - injection Hrows as <- <-. exists []. rewrite app_nil_r.
    split; [reflexivity |]. split; [reflexivity | apply all_returned_nil].
  - destruct (row orchestrate fr threadCounts calls _) as [calls1 e1] eqn:Hrow.
    apply row_swept in Hrow. destruct Hrow as (made1 & -> & Hmade1).
    cbn [list_prod].
    destruct e1 as [cout1 | cerr status].
    + apply IH in Hrows. destruct Hrows as (made2 & -> & Hmade2).
      exists (made1 ++ made2)%list. rewrite app_assoc. split; [reflexivity |].
      destruct Hmade1 as [Heq Hret]. subst made1.
      rewrite length_app in Hmade2.
      apply (swept_app _ _ _ _ cout1 _ _
               (conj eq_refl Hret) Hmade2).
    + injection Hrows as <- <-. exists made1. split; [reflexivity |].
      apply swept_exit. exact Hmade1.
Qed.

End SweepCalls.

Lemma runTests_swept show_rate orchestrate threadCounts :
  swept orchestrate (list_prod failureRates threadCounts) 0
    (fst (runTests show_rate orchestrate threadCounts))
    (snd (runTests show_rate orchestrate threadCounts)).
Proof.
  unfold runTests.
  destruct (rows show_rate orchestrate failureRates threadCounts [] _)
    as [calls e] eqn:Hrows.
  apply rows_swept in Hrows. destruct Hrows as (made & -> & Hmade).
  exact Hmade.
Qed.

(** [runTests] calls [doTestMultithreaded] for the failure rates 0, 1, 10
    and 100 in turn, and for each of them for the thread counts in turn.
    When it returns it has made all these calls, four times as many as
    there are thread counts, and all have returned; otherwise it has made
    the calls up to the first one that has ended the process, and no call
    after it.  It returns when no call ends the process. *)
Theorem sweep_calls show_rate orchestrate threadCounts :
  swept orchestrate (list_prod failureRates threadCounts) 0
    (fst (runTests show_rate orchestrate threadCounts))
    (snd (runTests show_rate orchestrate threadCounts)) /\
  length (list_prod failureRates threadCounts)
    = (4 * length threadCounts)%nat /\
  ((forall n fr tc, exists r, orchestrate n fr tc = Done r) ->
   exists cout,
     runTests show_rate orchestrate threadCounts
       = (list_prod failureRates threadCounts, Done cout)).
Proof.
  pose proof (runTests_swept show_rate orchestrate threadCounts) as Hmade.
  split; [exact Hmade |]. split.
  - rewrite length_prod. reflexivity.
  - intros Hall.
    destruct (runTests show_rate orchestrate threadCounts) as [calls e].
    cbn [fst snd] in Hmade. destruct e as [cout | cerr status]; cbn in Hmade.
    + destruct Hmade as [-> _]. eauto.
    + destruct Hmade as (before & fr & tc & after & _ & _ & _ & Hexit).
      destruct (Hall (length before) fr tc) as [r Hr].
      cbn [Nat.add] in Hexit. rewrite Hr in Hexit. discriminate.
Qed.

Lemma sweep_calls_witness :
  exists cout,
    runTests (fun _ => "0"%string) (fun _ _ tc => Done tc) [1; 2]
      = ([(0, 1); (0, 2); (1, 1); (1, 2); (10, 1); (10, 2); (100, 1); (100, 2)],
         Done cout).
Proof.
  apply (sweep_calls (fun _ => "0"%string) (fun _ _ tc => Done tc) [1; 2]).
  intros n fr tc. eauto.
Defined.

(** ** The whole program *)



